(** * NewGen: the authenticated post-access path and its per-user cache

    A shallow embedding of [controllers/auth.py], [controllers/post_service.py]
    and [routers/posts.py], with [controllers/user_service.py] and
    [routers/users.py] for the tokens they issue.

    - The SQL table of posts is a list of rows with the statements issued so
      far (the "store-call counter" of the tests is the length of that log).
    - [cache = TTLCache(maxsize=100, ttl=300)] is an ordered list of entries,
      oldest use first, each with its expiry on the monotonic clock.
    - Requests are served one at a time, each handler to its end. The
      handlers are coroutines, which the event loop can interleave at their
      [await]s; what is proved of a call or a sequence of calls is proved of
      service without overlap. Every handler is a computation in a state
      monad in which a raised exception keeps the state reached so far, as a
      Python [raise] does.
    - The wall clock has the microseconds of a [datetime]; [utcnow] is its
      epoch second, which the token's [exp] claim is compared with.
      [monotonic] is the timer of the cache, in seconds. *)

From stdpp Require Import gmap strings list.
From Stdlib Require Import ZArith Ascii DecimalString DecimalPos DecimalZ.

Open Scope Z_scope.

(** ** Exceptions and the handler monad *)

Inductive Exception :=
| HTTPException (status_code : Z) (detail : string)
| TypeError
| ValueError.

Definition HTTP_401_UNAUTHORIZED : Z := 401.
Definition HTTP_404_NOT_FOUND : Z := 404.
Definition HTTP_413_REQUEST_ENTITY_TOO_LARGE : Z := 413.

Inductive Result (A : Type) :=
| Return (a : A)
| Raise (e : Exception).
Arguments Return {A} a.
Arguments Raise {A} e.

(** [M S A]: a computation over a state [S] that returns or raises; the state
    it has reached survives a raise. *)
Definition M (S A : Type) : Type := S -> Result A * S.

Definition ret {S A} (a : A) : M S A := fun s => (Return a, s).
Definition raise {S A} (e : Exception) : M S A := fun s => (Raise e, s).
Definition bind {S A B} (c : M S A) (k : A -> M S B) : M S B :=
  fun s => match c s with
           | (Return a, s') => k a s'
           | (Raise e, s') => (Raise e, s')
           end.
Definition lift {S A} (r : Result A) : M S A := fun s => (r, s).

Notation "'do' x <- c ; k" := (bind c (fun x => k))
  (at level 10, x name, c at level 100, k at level 200).

(** ** models/post.py and schemas/post.py *)

Record Post := mkPost {
  Post_id : Z;
  Post_text : string;
  Post_owner_id : Z
}.

Record PostCreate := { PostCreate_text : string }.

Record PostResponse := mkPostResponse {
  PostResponse_id : Z;
  PostResponse_text : string;
  PostResponse_owner_id : Z
}.

(** What a cached list holds: the ORM rows a read stored
    ([cache[user_id] = posts]) and the [PostResponse] objects later appended by
    [add_post_to_db_and_cache]. *)
Inductive CachedPost :=
| Row (p : Post)
| Resp (r : PostResponse).

Definition from_orm (p : Post) : PostResponse :=
  {| PostResponse_id := Post_id p;
     PostResponse_text := Post_text p;
     PostResponse_owner_id := Post_owner_id p |}.

(** [PostResponse.from_orm(x)] reads the attributes [id], [text] and
    [owner_id] of [x], whichever of the two classes [x] is. *)
Definition from_orm_cached (x : CachedPost) : PostResponse :=
  match x with
  | Row p => from_orm p
  | Resp r => r
  end.

Definition cached_id (x : CachedPost) : Z := PostResponse_id (from_orm_cached x).
Definition cached_owner_id (x : CachedPost) : Z :=
  PostResponse_owner_id (from_orm_cached x).

(** ** The store: the [posts] table behind [AsyncSession] *)

Inductive Statement :=
| SelectByOwner (user_id : Z)
| SelectByIdAndOwner (post_id user_id : Z)
| Insert (p : Post)
| Delete (post_id : Z).

Record Database := mkDatabase {
  posts : list Post;            (* the rows, in storage order *)
  next_id : Z;                  (* the next auto-increment primary key *)
  statements : list Statement   (* every statement executed, oldest first *)
}.

Definition executed (q : Statement) (db : Database) : Database :=
  {| posts := posts db; next_id := next_id db;
     statements := statements db ++ [q] |}.

(** [select(Post).filter(Post.owner_id == user_id)] then [.scalars().all()] *)
Definition select_by_owner (user_id : Z) (db : Database) : list Post * Database :=
  (filter (fun p => Post_owner_id p = user_id) (posts db),
   executed (SelectByOwner user_id) db).

(** [select(Post).filter(Post.id == post_id, Post.owner_id == user_id)] then
    [.scalars().first()] *)
Definition select_by_id_and_owner (post_id user_id : Z) (db : Database)
  : option Post * Database :=
  (head (filter (fun p => Post_id p = post_id /\ Post_owner_id p = user_id) (posts db)),
   executed (SelectByIdAndOwner post_id user_id) db).

(** [db.add(new_post); await db.commit()]: the row gets its primary key. *)
Definition add_and_commit (text : string) (owner_id : Z) (db : Database)
  : Post * Database :=
  let new_post := mkPost (next_id db) text owner_id in
  (new_post,
   {| posts := posts db ++ [new_post];
      next_id := next_id db + 1;
      statements := statements db ++ [Insert new_post] |}).

(** [await db.delete(post); await db.commit()]: deletes by primary key. *)
Definition delete_and_commit (post : Post) (db : Database) : Database :=
  {| posts := filter (fun p => Post_id p <> Post_id post) (posts db);
     next_id := next_id db;
     statements := statements db ++ [Delete (Post_id post)] |}.

(** ** cachetools.TTLCache *)

Module TTLCache.

Record entry := mkEntry {
  key : Z;
  value : list CachedPost;
  expires : Z
}.

(** The entries in the order of the cache's ordered dictionary: the first is
    the next to be evicted, a use or a write moves an entry to the end. *)
Abbreviation t := (list entry).

Definition maxsize : Z := 100.
Definition ttl : Z := 300.

Definition empty : t := [].

(** The entry stored under [k], expired or not. *)
Definition find (k : Z) (c : t) : option entry :=
  head (filter (fun e => key e = k) c).

Definition remove (k : Z) (c : t) : t := filter (fun e => key e <> k) c.

Definition move_to_end (k : Z) (c : t) : t :=
  remove k c ++ filter (fun e => key e = k) c.

(** [expire(time)]: drops the entries whose time is up. The timer never runs
    backwards, so these are a prefix of the expiry chain. *)
Definition expire (time : Z) (c : t) : t :=
  filter (fun e => time < expires e) c.

(** [key in cache] *)
Definition contains (k : Z) (time : Z) (c : t) : bool :=
  match find k c with
  | Some e => bool_decide (time < expires e)
  | None => false
  end.

(** [cache.get(k)]: [None] when the key is missing or expired; a hit moves
    the entry to the end of the eviction order. *)
Definition get (k : Z) (time : Z) (c : t) : option (list CachedPost) * t :=
  if contains k time c
  then (value <$> find k c, move_to_end k c)
  else (None, c).

(** [while currsize + 1 > maxsize: popitem()] *)
Fixpoint make_room (c : t) : t :=
  match c with
  | [] => []
  | _ :: c' => if maxsize <? Z.of_nat (length c) + 1 then make_room c' else c
  end.

(** [cache[k] = v]: expired entries go first, then room is made for a new
    key, and the entry is (re)written with a fresh expiry at the end. *)
Definition setitem (k : Z) (v : list CachedPost) (time : Z) (c : t) : t :=
  let c1 := expire time c in
  let c2 := match find k c1 with
            | Some _ => c1
            | None => make_room c1
            end in
  remove k c2 ++ [mkEntry k v (time + ttl)].

(** [cached.append(x)] on the list object the cache holds under [k]: the
    stored list grows in place; neither its expiry nor its position in the
    eviction order changes. *)
Definition grow (k : Z) (x : CachedPost) (e : entry) : entry :=
  if decide (key e = k) then mkEntry (key e) (value e ++ [x]) (expires e) else e.

Definition append (k : Z) (x : CachedPost) (c : t) : t := grow k x <$> c.

End TTLCache.

(** ** Clocks and the state of the service *)

Record Clock := mkClock {
  datetime_utcnow : Z;  (* [datetime.utcnow()], microseconds since the epoch *)
  monotonic : Z         (* [time.monotonic()], the timer of the cache *)
}.

(** The epoch second of [datetime.utcnow()]. An integer claim is at most the
    current time exactly when it is at most this second. *)
Definition utcnow (now : Clock) : Z := datetime_utcnow now / 1000000.

Record World := mkWorld {
  db : Database;
  cache : TTLCache.t
}.

Definition Handler (A : Type) : Type := M World A.

Definition db_select_by_owner (user_id : Z) : Handler (list Post) :=
  fun w => let '(rows, d) := select_by_owner user_id (db w) in
           (Return rows, mkWorld d (cache w)).

Definition db_select_by_id_and_owner (post_id user_id : Z) : Handler (option Post) :=
  fun w => let '(row, d) := select_by_id_and_owner post_id user_id (db w) in
           (Return row, mkWorld d (cache w)).

Definition db_add_and_commit (text : string) (owner_id : Z) : Handler Post :=
  fun w => let '(p, d) := add_and_commit text owner_id (db w) in
           (Return p, mkWorld d (cache w)).

Definition db_delete_and_commit (post : Post) : Handler unit :=
  fun w => (Return tt, mkWorld (delete_and_commit post (db w)) (cache w)).

Definition cache_get (k : Z) (time : Z) : Handler (option (list CachedPost)) :=
  fun w => let '(v, c) := TTLCache.get k time (cache w) in
           (Return v, mkWorld (db w) c).

Definition cache_setitem (k : Z) (v : list CachedPost) (time : Z) : Handler unit :=
  fun w => (Return tt, mkWorld (db w) (TTLCache.setitem k v time (cache w))).

Definition cache_append (k : Z) (x : CachedPost) : Handler unit :=
  fun w => (Return tt, mkWorld (db w) (TTLCache.append k x (cache w))).

(** ** controllers/post_service.py *)

Record Request := { Request_body : list Byte.byte }.

Definition body_size (request : Request) : Z :=
  Z.of_nat (length (Request_body request)).

(** Python's truth value of [cache.get(user_id)]: [None] and the empty list
    are both false. *)
Definition truthy {A} (cached_posts : option (list A)) : bool :=
  match cached_posts with
  | Some (_ :: _) => true
  | _ => false
  end.

Definition add_post_to_db_and_cache (post : PostCreate) (user_id : Z)
    (request : Request) (now : Clock) : Handler Post :=
  if 1000000 <? body_size request
  then raise (HTTPException HTTP_413_REQUEST_ENTITY_TOO_LARGE "Payload too large")
  else
    do new_post <- db_add_and_commit (PostCreate_text post) user_id;
    do cached_posts <- cache_get user_id (monotonic now);
    do _ <- (if truthy cached_posts
             then cache_append user_id (Resp (from_orm new_post))
             else ret tt);
    ret new_post.

Definition get_user_posts_from_cache_or_db (user_id : Z) (now : Clock)
  : Handler (list PostResponse) :=
  do cached_posts <- cache_get user_id (monotonic now);
  if truthy cached_posts
  then ret (from_orm_cached <$> default [] cached_posts)
  else
    do posts <- db_select_by_owner user_id;
    match posts with
    | [] => raise (HTTPException HTTP_404_NOT_FOUND "No posts found")
    | _ :: _ =>
        do _ <- cache_setitem user_id (Row <$> posts) (monotonic now);
        ret (from_orm <$> posts)
    end.

Definition delete_post_from_db_and_cache (post_id user_id : Z) (now : Clock)
  : Handler bool :=
  do post <- db_select_by_id_and_owner post_id user_id;
  match post with
  | None => raise (HTTPException HTTP_404_NOT_FOUND
                     "Post not found or not owned by the user")
  | Some post =>
      do _ <- db_delete_and_commit post;
      do cached_posts <- cache_get user_id (monotonic now);
      do _ <- (if truthy cached_posts
               then cache_setitem user_id
                      (filter (fun p => cached_id p <> post_id) (default [] cached_posts))
                      (monotonic now)
               else ret tt);
      ret true
  end.

(** ** JSON claims and Python's [int()] *)

Inductive JsonValue :=
| JString (s : string)
| JInt (n : Z).

(** The white space [int()] skips around an ASCII numeral: space, tab, line
    feed, vertical tab, form feed and carriage return. *)
Definition is_space (a : ascii) : bool :=
  let n := Z.of_N (N_of_ascii a) in
  (n =? 32) || ((9 <=? n) && (n <=? 13)).

Definition digit_of (a : ascii) : option Z :=
  let n := Z.of_N (N_of_ascii a) in
  if (48 <=? n) && (n <=? 57) then Some (n - 48) else None.

Fixpoint lstrip (s : string) : string :=
  match s with
  | String a s' => if is_space a then lstrip s' else s
  | EmptyString => EmptyString
  end.

Definition strip (s : string) : string :=
  String.rev (lstrip (String.rev (lstrip s))).

(** Decimal digits, with single underscores allowed between two digits.
    [after_digit] says whether the previous character was a digit. *)
Fixpoint digits (acc : Z) (after_digit : bool) (s : string) : option Z :=
  match s with
  | EmptyString => if after_digit then Some acc else None
  | String a s' =>
      match digit_of a with
      | Some d => digits (10 * acc + d) true s'
      | None =>
          if Ascii.eqb a "_" && after_digit then digits acc false s' else None
      end
  end.

(** [int(s)] for a [str] of ASCII characters: surrounding whitespace, an
    optional sign, digits with single underscores between them. Python also
    reads the decimal digits of other scripts and refuses a literal of more
    than 4300 digits; the subjects the service issues are the [str] of a
    primary key. *)
Definition int_of_str (s : string) : option Z :=
  match strip s with
  | String "+" r => digits 0 false r
  | String "-" r => Z.opp <$> digits 0 false r
  | r => digits 0 false r
  end.

(** [int(d.get(name))]: [TypeError] on [None], [ValueError] on a string that
    is not a number. *)
Definition int_of_claim (v : option JsonValue) : Result Z :=
  match v with
  | None => Raise TypeError
  | Some (JInt n) => Return n
  | Some (JString s) =>
      match int_of_str s with
      | Some n => Return n
      | None => Raise ValueError
      end
  end.

(** ** The [jwt] package, as far as [controllers/auth.py] uses it *)

Record Header := mkHeader { alg : string; typ : string }.

Abbreviation Payload := (gmap string JsonValue).

(** A token string as the decoder sees it: either not a compact serialisation
    of a JSON header, a JSON object and a signature, or those three parts. *)
Inductive Token :=
| Garbage (raw : string)
| Jws (header : Header) (payload : Payload) (signature : string).

Inductive PyJWTError :=
| DecodeError
| InvalidAlgorithmError
| InvalidSignatureError
| ExpiredSignatureError
| ImmatureSignatureError
| InvalidIssuedAtError
| InvalidAudienceError.

Definition SECRET_KEY : string := "your_secret_key".
Definition ALGORITHM : string := "HS256".
Definition ACCESS_TOKEN_EXPIRE_MINUTES : Z := 30.

(** What the three endpoints answer, and the calls a client can make. *)
Inductive Response :=
| PostID (postID : Z)
| Posts (posts : list PostResponse)
| DeletePostResponse (success : bool) (message : string).

Inductive Call :=
| AddPost (post : PostCreate) (request : Request) (token : Token)
| GetPosts (token : Token)
| DeletePost (post_id : Z) (token : Token).

(** A process starts with an empty cache over whatever the database holds. *)
Definition startup (d : Database) : World := mkWorld d TTLCache.empty.

Section Auth.

(** The keyed hash behind HS256: key, then the header and claims signed. *)
Variable hmac_sha256 : string -> Header -> Payload -> string.

Definition jwt_encode (payload : Payload) (secret : string) (algorithm : string)
  : Token :=
  let header := mkHeader algorithm "JWT" in
  Jws header payload (hmac_sha256 secret header payload).

(** The [exp] check of [jwt.decode]: absent is accepted, a value that is not
    an integer is a [DecodeError], a time that has come is expired. *)
Definition validate_exp (payload : Payload) (now : Z) : option PyJWTError :=
  match payload !! "exp" with
  | None => None
  | Some v =>
      match int_of_claim (Some v) with
      | Return exp => if exp <=? now then Some ExpiredSignatureError else None
      | Raise _ => Some DecodeError
      end
  end.

(** The [iat] check: a value that is not an integer is refused, and so is a
    time of issue that is still to come. *)
Definition validate_iat (payload : Payload) (now : Z) : option PyJWTError :=
  match payload !! "iat" with
  | None => None
  | Some v =>
      match int_of_claim (Some v) with
      | Return iat => if now <? iat then Some ImmatureSignatureError else None
      | Raise _ => Some InvalidIssuedAtError
      end
  end.

(** The [nbf] check: the token is refused before its not-before time. *)
Definition validate_nbf (payload : Payload) (now : Z) : option PyJWTError :=
  match payload !! "nbf" with
  | None => None
  | Some v =>
      match int_of_claim (Some v) with
      | Return nbf => if now <? nbf then Some ImmatureSignatureError else None
      | Raise _ => Some DecodeError
      end
  end.

(** Python's truth value of a claim: the empty string and zero are false. *)
Definition claim_truthy (v : JsonValue) : bool :=
  match v with
  | JString s => negb (String.eqb s "")
  | JInt n => negb (n =? 0)
  end.

(** The [aud] check when the caller names no audience, as
    [decode_access_token] does: a token that carries one is refused. *)
Definition validate_aud (payload : Payload) : option PyJWTError :=
  match payload !! "aud" with
  | None => None
  | Some v => if claim_truthy v then Some InvalidAudienceError else None
  end.

(** The registered claims, checked in the order [iat], [nbf], [exp], [aud]. *)
Definition validate_claims (payload : Payload) (now : Z) : option PyJWTError :=
  match validate_iat payload now with
  | Some e => Some e
  | None =>
      match validate_nbf payload now with
      | Some e => Some e
      | None =>
          match validate_exp payload now with
          | Some e => Some e
          | None => validate_aud payload
          end
      end
  end.

Definition jwt_decode (token : Token) (secret : string) (algorithms : list string)
    (now : Z) : PyJWTError + Payload :=
  match token with
  | Garbage _ => inl DecodeError
  | Jws header payload signature =>
      if negb (bool_decide (alg header ∈ algorithms)) then inl InvalidAlgorithmError
      else if negb (String.eqb signature (hmac_sha256 secret header payload))
      then inl InvalidSignatureError
      else match validate_claims payload now with
           | Some e => inl e
           | None => inr payload
           end
  end.

(** ** controllers/auth.py *)

(** [expires_delta] is a [timedelta], in microseconds; [None] and a zero
    [timedelta] are both false for [or] and give the default. [expire] is a
    [datetime]; [jwt.encode] writes it into the token as its epoch second,
    dropping the microseconds. *)
Definition create_access_token (data : Payload) (expires_delta : option Z)
    (now : Clock) : Token :=
  let to_encode := data in
  let minutes := ACCESS_TOKEN_EXPIRE_MINUTES * 60 * 1000000 in
  let delta := match expires_delta with
               | Some d => if d =? 0 then minutes else d
               | None => minutes
               end in
  let expire := datetime_utcnow now + delta in
  let to_encode := <["exp" := JInt (expire / 1000000)]> to_encode in
  jwt_encode to_encode SECRET_KEY ALGORITHM.

Definition decode_access_token (token : Token) (now : Clock) : option Payload :=
  match jwt_decode token SECRET_KEY [ALGORITHM] (utcnow now) with
  | inr payload => Some payload
  | inl _ => None
  end.

Definition get_current_user (token : Token) (now : Clock) : Result Payload :=
  match decode_access_token token now with
  | None => Raise (HTTPException HTTP_401_UNAUTHORIZED "Invalid token")
  | Some payload => Return payload
  end.

(** ** routers/posts.py *)

(** [Depends(get_current_user)] followed by [int(current_user.get("sub"))] *)
Definition current_user_id (token : Token) (now : Clock) : Handler Z :=
  do current_user <- lift (get_current_user token now);
  lift (int_of_claim (current_user !! "sub")).

Definition add_post (post : PostCreate) (request : Request) (token : Token)
    (now : Clock) : Handler Response :=
  do user_id <- current_user_id token now;
  do new_post <- add_post_to_db_and_cache post user_id request now;
  ret (PostID (Post_id new_post)).

Definition get_posts (token : Token) (now : Clock) : Handler Response :=
  do user_id <- current_user_id token now;
  do posts <- get_user_posts_from_cache_or_db user_id now;
  ret (Posts posts).

Definition delete_post (post_id : Z) (token : Token) (now : Clock)
  : Handler Response :=
  do user_id <- current_user_id token now;
  do _ <- delete_post_from_db_and_cache post_id user_id now;
  ret (DeletePostResponse true "Post deleted successfully").

(** ** Runs of the service *)

Definition serve (now : Clock) (c : Call) : Handler Response :=
  match c with
  | AddPost post request token => add_post post request token now
  | GetPosts token => get_posts token now
  | DeletePost post_id token => delete_post post_id token now
  end.

(** The state after a sequence of calls, each at its own time and each
    served to its end before the next begins, and the answers given on the
    way. *)
Fixpoint run (calls : list (Clock * Call)) (w : World) : World :=
  match calls with
  | [] => w
  | (now, c) :: rest => run rest (snd (serve now c w))
  end.

Fixpoint answers (calls : list (Clock * Call)) (w : World)
  : list (Result Response) :=
  match calls with
  | [] => []
  | (now, c) :: rest => fst (serve now c w) :: answers rest (snd (serve now c w))
  end.

(** The three ways a token is refused, in the words of the design: its
    structure is malformed, its signature does not check, or its expiry has
    passed. *)
Inductive verification_fails (token : Token) (now : Clock) : Prop :=
| malformed raw :
    token = Garbage raw -> verification_fails token now
| signature_fails header payload signature :
    token = Jws header payload signature ->
    signature <> hmac_sha256 SECRET_KEY header payload ->
    verification_fails token now
| expiry_passed header payload signature exp :
    token = Jws header payload signature ->
    int_of_claim (payload !! "exp") = Return exp ->
    exp <= utcnow now ->
    verification_fails token now.

(** The token is accepted at [now] and its subject reads as [user_id]. *)
Definition authenticated (token : Token) (now : Clock) (user_id : Z) : Prop :=
  exists payload,
    get_current_user token now = Return payload /\
    int_of_claim (payload !! "sub") = Return user_id.

(** The call is a [deletePost] of a post the caller owns that takes the last
    post out of the caller's live cached list. *)
Definition empties_entry (now : Clock) (c : Call) (w : World) : Prop :=
  match c with
  | DeletePost post_id token =>
      exists user_id l,
        authenticated token now user_id /\
        (exists post, post ∈ posts (db w) /\ Post_id post = post_id /\
                      Post_owner_id post = user_id) /\
        fst (TTLCache.get user_id (monotonic now) (cache w)) = Some l /\
        l <> [] /\
        filter (fun p => cached_id p <> post_id) l = []
  | _ => False
  end.

(** No call of the sequence, served from [w] on, empties an entry. *)
Fixpoint never_empties (calls : list (Clock * Call)) (w : World) : Prop :=
  match calls with
  | [] => True
  | (now, c) :: rest =>
      ~ empties_entry now c w /\ never_empties rest (snd (serve now c w))
  end.

End Auth.

(** ** Python's [str()] on an integer *)

Definition str (n : Z) : string := NilZero.string_of_int (Z.to_int n).

(** ** models/user.py, schemas/user.py and the [users] table *)

Record User := mkUser {
  User_id : Z;
  User_email : string;
  User_hashed_password : string
}.

Record UserCreate := {
  UserCreate_email : string;
  UserCreate_password : string
}.

Record OAuth2PasswordRequestForm := {
  form_username : string;
  form_password : string
}.

Record SignupResponse := {
  signup_message : string;
  signup_access_token : Token;
  signup_token_type : string
}.

Record TokenResponse := {
  access_token : Token;
  token_type : string
}.

Record UserTable := mkUserTable {
  users : list User;       (* the rows, in storage order *)
  next_user_id : Z         (* the next auto-increment primary key *)
}.

(** What [await db.commit()] raises when the new row breaks [unique=True] on
    [email]. *)
Inductive DatabaseError := IntegrityError.

(** [db.add(new_user); await db.commit()]: refused when the email is taken,
    otherwise the row gets its primary key. *)
Definition add_user_and_commit (email hashed_password : string) (t : UserTable)
  : DatabaseError + User * UserTable :=
  if bool_decide (email ∈ User_email <$> users t) then inl IntegrityError
  else
    let new_user := mkUser (next_user_id t) email hashed_password in
    inr (new_user, mkUserTable (users t ++ [new_user]) (next_user_id t + 1)).

(** [select(User).filter(User.email == username)] then [.scalars().first()] *)
Definition select_user_by_email (username : string) (t : UserTable) : option User :=
  head (filter (fun u => User_email u = username) (users t)).

Section UserService.

Variable hmac_sha256 : string -> Header -> Payload -> string.

(** passlib's bcrypt context: hashing draws a salt, verifying reads it back
    from the digest. *)
Variable bcrypt_hash : string -> string -> string.
Variable bcrypt_verify : string -> string -> bool.

(** [get_password_hash], with the salt the call draws. *)
Definition get_password_hash (password salt : string) : string :=
  bcrypt_hash password salt.

Definition verify_password (plain_password hashed_password : string) : bool :=
  bcrypt_verify plain_password hashed_password.

(** ** controllers/user_service.py *)

Definition signup (user_data : UserCreate) (salt : string) (now : Clock)
    (t : UserTable) : (DatabaseError + SignupResponse) * UserTable :=
  let hashed_password := get_password_hash (UserCreate_password user_data) salt in
  match add_user_and_commit (UserCreate_email user_data) hashed_password t with
  | inl e => (inl e, t)
  | inr (new_user, t') =>
      let token := create_access_token hmac_sha256
                     {["sub" := JString (str (User_id new_user))]} None now in
      (inr {| signup_message := "User created successfully";
              signup_access_token := token;
              signup_token_type := "bearer" |}, t')
  end.

Definition login (user_data : OAuth2PasswordRequestForm) (now : Clock)
    (t : UserTable) : Result TokenResponse :=
  match select_user_by_email (form_username user_data) t with
  | None => Raise (HTTPException HTTP_401_UNAUTHORIZED "Invalid credentials")
  | Some user =>
      if negb (verify_password (form_password user_data) (User_hashed_password user))
      then Raise (HTTPException HTTP_401_UNAUTHORIZED "Invalid credentials")
      else
        let token := create_access_token hmac_sha256
                       {["sub" := JString (str (User_id user))]} None now in
        Return {| access_token := token; token_type := "bearer" |}
  end.

(** ** routers/users.py *)

Definition signup_user (user : UserCreate) (salt : string) (now : Clock)
  : UserTable -> (DatabaseError + SignupResponse) * UserTable :=
  signup user salt now.

Definition login_user (data : OAuth2PasswordRequestForm) (now : Clock)
  : UserTable -> Result TokenResponse :=
  login data now.

(** The table after a sequence of sign-ups, each with its salt and time. *)
Fixpoint run_signups (calls : list (UserCreate * string * Clock)) (t : UserTable)
  : UserTable :=
  match calls with
  | [] => t
  | (user, salt, now) :: rest => run_signups rest (snd (signup_user user salt now t))
  end.

End UserService.

(** ** Well-formed states *)

(** Primary keys of [posts]: pairwise distinct, all below the next one. *)
Definition db_wf (d : Database) : Prop :=
  NoDup (Post_id <$> posts d) /\
  Forall (fun p => Post_id p < next_id d) (posts d).

(** Emails and primary keys of [users]: pairwise distinct, keys below the
    next one. *)
Definition users_wf (t : UserTable) : Prop :=
  NoDup (User_email <$> users t) /\
  NoDup (User_id <$> users t) /\
  Forall (fun u => User_id u < next_user_id t) (users t).

(** One entry per key, and no more entries than [maxsize]. *)
Definition cache_wf (c : list TTLCache.entry) : Prop :=
  NoDup (TTLCache.key <$> c) /\
  Z.of_nat (length c) <= TTLCache.maxsize.

(** At time [time], an entry that is live and non-empty lists exactly the
    stored posts of its owner, in the order of the store. *)
Definition entry_coherent (time : Z) (d : Database) (e : TTLCache.entry) : Prop :=
  time < TTLCache.expires e ->
  TTLCache.value e <> [] ->
  from_orm_cached <$> TTLCache.value e =
    from_orm <$> filter (fun p => Post_owner_id p = TTLCache.key e) (posts d).

Definition coherent (time : Z) (w : World) : Prop :=
  Forall (entry_coherent time (db w)) (cache w).

(** The three together. *)
Definition sound (time : Z) (w : World) : Prop :=
  db_wf (db w) /\ cache_wf (cache w) /\ coherent time w.

(** The calls come with a timer that never runs backwards, starting at [time]. *)
Fixpoint timely (time : Z) (calls : list (Clock * Call)) : Prop :=
  match calls with
  | [] => True
  | (now, _) :: rest => time <= monotonic now /\ timely (monotonic now) rest
  end.

Fixpoint clock_after (time : Z) (calls : list (Clock * Call)) : Z :=
  match calls with
  | [] => time
  | (now, _) :: rest => clock_after (monotonic now) rest
  end.

(** ** Reading decimal numerals *)

(** No character of [s] is white space. *)
Fixpoint clean (s : string) : bool :=
  match s with
  | EmptyString => true
  | String a s' => negb (is_space a) && clean s'
  end.

(** The number a decimal numeral writes, read from the left after [acc]. *)
Fixpoint uint_value (acc : Z) (d : Decimal.uint) : Z :=
  match d with
  | Decimal.Nil => acc
  | Decimal.D0 d => uint_value (10 * acc + 0) d
  | Decimal.D1 d => uint_value (10 * acc + 1) d
  | Decimal.D2 d => uint_value (10 * acc + 2) d
  | Decimal.D3 d => uint_value (10 * acc + 3) d
  | Decimal.D4 d => uint_value (10 * acc + 4) d
  | Decimal.D5 d => uint_value (10 * acc + 5) d
  | Decimal.D6 d => uint_value (10 * acc + 6) d
  | Decimal.D7 d => uint_value (10 * acc + 7) d
  | Decimal.D8 d => uint_value (10 * acc + 8) d
  | Decimal.D9 d => uint_value (10 * acc + 9) d
  end.

(** ** Two invariants of the cache *)

(** Every cached list is non-empty. *)
Definition nonempty_entries (c : list TTLCache.entry) : Prop :=
  Forall (fun e => TTLCache.value e <> []) c.

(** Every cached post is filed under its owner. *)
Definition filed_by_owner (c : list TTLCache.entry) : Prop :=
  Forall (fun e => Forall (fun x => cached_owner_id x = TTLCache.key e) (TTLCache.value e)) c.

(** ** Sample data *)

Module Sample.

(** A stand-in for the keyed hash, enough to run the service on examples. *)
Definition mac (secret : string) (header : Header) (payload : Payload) : string :=
  secret +:+ alg header.

Definition noon : Clock := mkClock 1000000000 0.
Definition later : Clock := mkClock 2800000000 1800.

Definition alice : Token :=
  create_access_token mac {["sub" := JString "1"]} None noon.
Definition bob : Token :=
  create_access_token mac {["sub" := JString "2"]} None noon.
Definition forged : Token :=
  Jws (mkHeader "HS256" "JWT") {["sub" := JString "1"]} "guess".

Definition hello : PostCreate := {| PostCreate_text := "hello" |}.
Definition small : Request := {| Request_body := [] |}.
Definition of_size (n : Z) : Request :=
  {| Request_body := replicate (Z.to_nat n) Byte.x00 |}.

Definition fresh : World := startup (mkDatabase [] 1 []).

(** Alice posts, lists, and deletes her only post. *)
Definition emptied : World :=
  run mac [(noon, AddPost hello small alice);
           (noon, GetPosts alice);
           (noon, DeletePost 1 alice)] fresh.

(** Alice has one post in the store and none in the cache. *)
Definition cold : World :=
  run mac [(noon, AddPost hello small alice)] fresh.

(** Alice has one post, in the store and in the cache. *)
Definition warm : World :=
  run mac [(noon, AddPost hello small alice); (noon, GetPosts alice)] fresh.

End Sample.

Module SampleUsers.

(** Stand-ins for bcrypt, enough to run the user service on examples. *)
Definition digest (password salt : string) : string := password.
Definition check (password hashed : string) : bool := String.eqb password hashed.

Definition nobody : UserTable := mkUserTable [] 1.

Definition carol : UserCreate :=
  {| UserCreate_email := "carol@x.com"; UserCreate_password := "12345678" |}.

Definition carol_form : OAuth2PasswordRequestForm :=
  {| form_username := "carol@x.com"; form_password := "12345678" |}.

Definition wrong_form : OAuth2PasswordRequestForm :=
  {| form_username := "carol@x.com"; form_password := "87654321" |}.

Definition stranger_form : OAuth2PasswordRequestForm :=
  {| form_username := "dave@x.com"; form_password := "12345678" |}.

(** Carol has signed up. *)
Definition registered : UserTable :=
  snd (signup Sample.mac digest carol "salt" Sample.noon nobody).

(** Alice logs in again, half an hour later. *)
Definition alice_again : Token :=
  create_access_token Sample.mac {["sub" := JString "1"]} None Sample.later.

Definition three_calls : list (Clock * Call) :=
  [(Sample.noon, AddPost Sample.hello Sample.small Sample.alice);
   (Sample.noon, GetPosts Sample.alice);
   (Sample.noon, DeletePost 1 Sample.alice)].

Definition two_calls : list (Clock * Call) :=
  [(Sample.noon, AddPost Sample.hello Sample.small Sample.alice);
   (Sample.noon, GetPosts Sample.alice)].

End SampleUsers.

(** * Facts about the cache *)

Module TTLCacheFacts.
Import TTLCache.

Lemma find_nil k : find k [] = None.
Proof. reflexivity. Qed.

Lemma find_cons k e c :
  find k (e :: c) = if decide (key e = k) then Some e else find k c.
Proof. unfold find. rewrite filter_cons. by case_decide. Qed.

Lemma find_app k c1 c2 :
  find k (c1 ++ c2) = match find k c1 with
                      | Some e => Some e
                      | None => find k c2
                      end.
Proof. unfold find. rewrite filter_app. by destruct (filter _ c1). Qed.

Lemma find_Some k c e : find k c = Some e -> key e = k /\ e ∈ c.
Proof.
  unfold find. intros H. apply head_Some_elem_of in H.
  by apply list_elem_of_filter in H.
Qed.

Lemma find_None k c : find k c = None <-> forall e, e ∈ c -> key e <> k.
Proof.
  unfold find. rewrite head_None. split.
  - intros H e He Hk. by eapply filter_nil_not_elem_of; [exact H | exact Hk | exact He].
  - intros H. induction c as [|e c IH]; [done|].
    rewrite filter_cons_False; [|apply H; left].
    apply IH. intros e' He'. apply H. by right.
Qed.

Lemma find_remove_eq k c : find k (remove k c) = None.
Proof.
  apply find_None. intros e He. by apply list_elem_of_filter in He as [? _].
Qed.

Lemma find_remove_ne k k' c : k <> k' -> find k' (remove k c) = find k' c.
Proof.
  intros Hne. induction c as [|e c IH]; [done|].
  unfold remove in *. rewrite filter_cons, find_cons.
  case_decide; [rewrite find_cons | ]; repeat case_decide; congruence.
Qed.

Lemma find_only_eq k c : find k (filter (fun e => key e = k) c) = find k c.
Proof.
  induction c as [|e c IH]; [done|].
  rewrite filter_cons, find_cons.
  case_decide; [rewrite find_cons; by case_decide | done].
Qed.

Lemma find_only_ne k k' c :
  k <> k' -> find k' (filter (fun e => key e = k) c) = None.
Proof.
  intros Hne. apply find_None. intros e He.
  apply list_elem_of_filter in He as [? _]. congruence.
Qed.

(** Moving an entry to the end of the eviction order changes no lookup. *)
Lemma find_move_to_end k k' c : find k' (move_to_end k c) = find k' c.
Proof.
  unfold move_to_end. rewrite find_app.
  destruct (decide (k = k')) as [->|Hne].
  - by rewrite find_remove_eq, find_only_eq.
  - rewrite find_remove_ne, find_only_ne by done. by destruct (find k' c).
Qed.

Lemma find_setitem k v time c :
  find k (setitem k v time c) = Some (mkEntry k v (time + ttl)).
Proof.
  unfold setitem. rewrite find_app, find_remove_eq, find_cons.
  by rewrite decide_True.
Qed.

Lemma key_grow k x e : key (grow k x e) = key e.
Proof. unfold grow. by case_decide. Qed.

Lemma find_append k x k' c : find k' (append k x c) = grow k x <$> find k' c.
Proof.
  induction c as [|e c IH]; [done|].
  unfold append in *. rewrite fmap_cons, !find_cons.
  rewrite key_grow. by case_decide.
Qed.

Lemma contains_move_to_end k k' time c :
  contains k' time (move_to_end k c) = contains k' time c.
Proof. unfold contains. by rewrite find_move_to_end. Qed.

(** What [get] returns, and that it moves at most the entry read. *)
Lemma get_Some k time c l :
  fst (get k time c) = Some l <->
  exists e, find k c = Some e /\ time < expires e /\ value e = l.
Proof.
  unfold get, contains. destruct (find k c) as [e|]; simpl.
  - case_bool_decide; simpl; split.
    + intros [= <-]. eauto.
    + intros (e' & [= <-] & _ & <-). done.
    + done.
    + intros (e' & [= <-] & ? & _). done.
  - split; [done | by intros (? & ? & _)].
Qed.

Lemma get_hit k time c l :
  fst (get k time c) = Some l -> snd (get k time c) = move_to_end k c.
Proof.
  unfold get. destruct (contains k time c); [done|]. simpl. discriminate.
Qed.

Lemma get_miss k time c :
  contains k time c = false -> get k time c = (None, c).
Proof. unfold get. by intros ->. Qed.

Lemma find_get k k' time c : find k' (snd (get k time c)) = find k' c.
Proof.
  unfold get. destruct (contains k time c); [|done].
  apply find_move_to_end.
Qed.

(** A written entry is read back until its time to live is over. *)
Lemma get_setitem k v time time' c :
  time' < time + ttl ->
  fst (get k time' (setitem k v time c)) = Some v.
Proof.
  intros Hlive. apply get_Some. eexists. by split; [apply find_setitem|].
Qed.

(** Reading after an append in place sees the longer list. *)
Lemma get_append k x time c l :
  fst (get k time c) = Some l ->
  fst (get k time (append k x (snd (get k time c)))) = Some (l ++ [x]).
Proof.
  intros Hget. apply get_Some in Hget as (e & Hfind & Hlive & <-).
  apply get_Some. rewrite find_append, find_get, Hfind. simpl.
  apply find_Some in Hfind as [Hkey _]. unfold grow. rewrite decide_True by done.
  eexists. by repeat split.
Qed.

(** A key that is missing or expired stays so as the timer advances. *)
Lemma contains_later k time time' c :
  time <= time' -> contains k time c = false -> contains k time' c = false.
Proof.
  unfold contains. intros Hle. destruct (find k c) as [e|]; [|done].
  rewrite !bool_decide_eq_false. lia.
Qed.

Lemma contains_false_get k time c :
  contains k time c = false -> fst (get k time c) = None /\ snd (get k time c) = c.
Proof. intros H. by rewrite get_miss. Qed.

End TTLCacheFacts.

(** * The handlers, one step at a time *)

Section Handlers.

Variable hmac_sha256 : string -> Header -> Payload -> string.

Lemma current_user_id_authenticated token now user_id w :
  authenticated hmac_sha256 token now user_id ->
  current_user_id hmac_sha256 token now w = (Return user_id, w).
Proof.
  intros (payload & Hp & Hsub).
  unfold current_user_id, bind, lift. by rewrite Hp, Hsub.
Qed.

Lemma current_user_id_state token now w :
  snd (current_user_id hmac_sha256 token now w) = w.
Proof.
  unfold current_user_id, bind, lift.
  by destruct (get_current_user _ _ _).
Qed.

Lemma current_user_id_Return token now user_id w w' :
  current_user_id hmac_sha256 token now w = (Return user_id, w') ->
  authenticated hmac_sha256 token now user_id /\ w' = w.
Proof.
  unfold current_user_id, bind, lift, authenticated.
  destruct (get_current_user _ _ _) as [payload|e] eqn:Hp; [|done].
  intros [= Hsub <-]. eauto.
Qed.

(** Every refusal of [jwt.decode] ends in the same answer. *)
Lemma decode_error_uniform token now e :
  jwt_decode hmac_sha256 token SECRET_KEY [ALGORITHM] (utcnow now) = inl e ->
  decode_access_token hmac_sha256 token now = None /\
  get_current_user hmac_sha256 token now =
    Raise (HTTPException HTTP_401_UNAUTHORIZED "Invalid token").
Proof.
  intros H. unfold get_current_user, decode_access_token. by rewrite H.
Qed.

Lemma verification_fails_decode token now :
  verification_fails hmac_sha256 token now ->
  exists e, jwt_decode hmac_sha256 token SECRET_KEY [ALGORITHM] (utcnow now) = inl e.
Proof.
  intros [raw -> | header payload signature -> Hsig
          | header payload signature exp -> Hexp Hle]; simpl.
  - eauto.
  - destruct (negb (bool_decide _)); [eauto|].
    apply String.eqb_neq in Hsig. rewrite Hsig. simpl. eauto.
  - destruct (negb (bool_decide _)); [eauto|].
    destruct (negb (String.eqb _ _)); [eauto|].
    unfold validate_claims.
    destruct (validate_iat payload (utcnow now)); [eauto|].
    destruct (validate_nbf payload (utcnow now)); [eauto|].
    unfold validate_exp.
    destruct (payload !! "exp") as [v|] eqn:Hv; [|done].
    rewrite Hexp. apply Z.leb_le in Hle. rewrite Hle. eauto.
Qed.

Lemma algorithm_allowed : bool_decide (ALGORITHM ∈ [ALGORITHM]) = true.
Proof. apply bool_decide_eq_true_2. left. Qed.

(** The checks on the claims of a token issued for a subject: only [exp]
    can fail. *)
Lemma validate_claims_issued s exp now :
  validate_claims (<["exp" := JInt exp]> {["sub" := JString s]}) now =
    if exp <=? now then Some ExpiredSignatureError else None.
Proof.
  unfold validate_claims, validate_iat, validate_nbf, validate_exp, validate_aud.
  rewrite !(lookup_insert_ne _ "exp") by done.
  rewrite !lookup_singleton_ne by done.
  rewrite lookup_insert_eq. cbn [int_of_claim]. by destruct (exp <=? now).
Qed.

(** Decoding a token the service issued for a subject: it stands until the
    epoch second written into [exp]. *)
Lemma decode_issued s delta issued now :
  delta <> 0 ->
  decode_access_token hmac_sha256
    (create_access_token hmac_sha256 {["sub" := JString s]} (Some delta) issued) now =
  if (datetime_utcnow issued + delta) / 1000000 <=? utcnow now then None
  else Some (<["exp" := JInt ((datetime_utcnow issued + delta) / 1000000)]>
               {["sub" := JString s]}).
Proof.
  intros Hnz. apply Z.eqb_neq in Hnz.
  unfold decode_access_token, create_access_token, jwt_encode, jwt_decode.
  cbn [alg]. rewrite algorithm_allowed, String.eqb_refl, Hnz. cbn [negb].
  rewrite validate_claims_issued. by destruct (_ <=? _).
Qed.

(** With no [expires_delta], or a zero one, the token stands for
    [ACCESS_TOKEN_EXPIRE_MINUTES] from the epoch second of its issue. *)
Lemma decode_issued_default s expires_delta issued now :
  expires_delta = None \/ expires_delta = Some 0 ->
  decode_access_token hmac_sha256
    (create_access_token hmac_sha256 {["sub" := JString s]} expires_delta issued) now =
  if utcnow issued + 1800 <=? utcnow now then None
  else Some (<["exp" := JInt (utcnow issued + 1800)]> {["sub" := JString s]}).
Proof.
  intros Hdelta.
  assert (create_access_token hmac_sha256 {["sub" := JString s]} expires_delta issued =
          create_access_token hmac_sha256 {["sub" := JString s]}
            (Some (1800 * 1000000)) issued) as ->
    by (by destruct Hdelta as [-> | ->]).
  rewrite decode_issued by done.
  unfold utcnow. by rewrite Z.div_add.
Qed.

Lemma get_current_user_authenticated token now user_id :
  authenticated hmac_sha256 token now user_id ->
  forall user_id', authenticated hmac_sha256 token now user_id' -> user_id' = user_id.
Proof.
  intros (payload & Hp & Hsub) user_id' (payload' & Hp' & Hsub'). congruence.
Qed.

(** *** The controllers, unfolded *)

Lemma add_post_too_large post user_id request now w :
  1000000 < body_size request ->
  add_post_to_db_and_cache post user_id request now w =
    (Raise (HTTPException HTTP_413_REQUEST_ENTITY_TOO_LARGE "Payload too large"), w).
Proof.
  intros H. unfold add_post_to_db_and_cache.
  apply Z.ltb_lt in H. by rewrite H.
Qed.

Lemma add_post_accepted post user_id request now w :
  body_size request <= 1000000 ->
  add_post_to_db_and_cache post user_id request now w =
    let new_post := mkPost (next_id (db w)) (PostCreate_text post) user_id in
    let hit := TTLCache.get user_id (monotonic now) (cache w) in
    (Return new_post,
     mkWorld (snd (add_and_commit (PostCreate_text post) user_id (db w)))
             (if truthy (fst hit)
              then TTLCache.append user_id (Resp (from_orm new_post)) (snd hit)
              else snd hit)).
Proof.
  intros H. unfold add_post_to_db_and_cache.
  apply Z.ltb_ge in H. rewrite H.
  unfold bind, db_add_and_commit, cache_get, cache_append, ret. simpl.
  destruct (TTLCache.get _ _ _) as [o c]. simpl.
  by destruct (truthy o).
Qed.

Lemma list_posts_hit user_id now w l :
  fst (TTLCache.get user_id (monotonic now) (cache w)) = Some l ->
  l <> [] ->
  get_user_posts_from_cache_or_db user_id now w =
    (Return (from_orm_cached <$> l),
     mkWorld (db w) (TTLCache.move_to_end user_id (cache w))).
Proof.
  intros Hget Hne. pose proof (TTLCacheFacts.get_hit _ _ _ _ Hget) as Hsnd.
  unfold get_user_posts_from_cache_or_db, bind, cache_get, ret.
  destruct (TTLCache.get _ _ _) as [o c]. simpl in *. subst o c.
  by destruct l.
Qed.

Lemma list_posts_miss user_id now w :
  truthy (fst (TTLCache.get user_id (monotonic now) (cache w))) = false ->
  get_user_posts_from_cache_or_db user_id now w =
    let c := snd (TTLCache.get user_id (monotonic now) (cache w)) in
    let d := executed (SelectByOwner user_id) (db w) in
    match filter (fun p => Post_owner_id p = user_id) (posts (db w)) with
    | [] => (Raise (HTTPException HTTP_404_NOT_FOUND "No posts found"), mkWorld d c)
    | rows =>
        (Return (from_orm <$> rows),
         mkWorld d (TTLCache.setitem user_id (Row <$> rows) (monotonic now) c))
    end.
Proof.
  intros Hmiss.
  unfold get_user_posts_from_cache_or_db, bind, cache_get, ret.
  destruct (TTLCache.get _ _ _) as [o c]. simpl in *. rewrite Hmiss.
  unfold db_select_by_owner, select_by_owner, cache_setitem, raise. simpl.
  by destruct (filter _ _).
Qed.

Lemma delete_post_refused post_id user_id now w :
  (forall p, p ∈ posts (db w) -> Post_id p = post_id -> Post_owner_id p <> user_id) ->
  delete_post_from_db_and_cache post_id user_id now w =
    (Raise (HTTPException HTTP_404_NOT_FOUND "Post not found or not owned by the user"),
     mkWorld (executed (SelectByIdAndOwner post_id user_id) (db w)) (cache w)).
Proof.
  intros Hnone.
  unfold delete_post_from_db_and_cache, bind, db_select_by_id_and_owner,
    select_by_id_and_owner. simpl.
  destruct (filter _ _) as [|p rows] eqn:Hrows; [done|]. exfalso.
  assert (p ∈ filter (fun p => Post_id p = post_id /\ Post_owner_id p = user_id)
              (posts (db w))) as Hp by (rewrite Hrows; left).
  apply list_elem_of_filter in Hp as [[Hid Hown] Hin]. by eapply Hnone.
Qed.

Lemma delete_post_done post_id user_id now w post :
  head (filter (fun p => Post_id p = post_id /\ Post_owner_id p = user_id)
          (posts (db w))) = Some post ->
  delete_post_from_db_and_cache post_id user_id now w =
    let d := delete_and_commit post (executed (SelectByIdAndOwner post_id user_id) (db w)) in
    let hit := TTLCache.get user_id (monotonic now) (cache w) in
    (Return true,
     mkWorld d
       (if truthy (fst hit)
        then TTLCache.setitem user_id
               (filter (fun p => cached_id p <> post_id) (default [] (fst hit)))
               (monotonic now) (snd hit)
        else snd hit)).
Proof.
  intros Hpost.
  unfold delete_post_from_db_and_cache, bind, db_select_by_id_and_owner,
    select_by_id_and_owner. simpl. rewrite Hpost.
  unfold db_delete_and_commit, cache_get, cache_setitem, ret. simpl.
  destruct (TTLCache.get _ _ _) as [o c]. simpl.
  by destruct (truthy o).
Qed.

Lemma owned_post_found post_id user_id w post :
  post ∈ posts (db w) ->
  Post_id post = post_id ->
  Post_owner_id post = user_id ->
  exists found,
    head (filter (fun p => Post_id p = post_id /\ Post_owner_id p = user_id)
            (posts (db w))) = Some found /\ Post_id found = post_id.
Proof.
  intros Hpost Hid Hown.
  destruct (filter _ _) as [|found rest] eqn:Hrows.
  - exfalso. eapply filter_nil_not_elem_of; [exact Hrows | | exact Hpost]. done.
  - exists found. split; [done|].
    assert (found ∈ filter (fun p => Post_id p = post_id /\ Post_owner_id p = user_id)
              (posts (db w))) as Hin by (rewrite Hrows; left).
    by apply list_elem_of_filter in Hin as [[? _] _].
Qed.

(** *** The routes of an authenticated caller *)

Lemma add_post_route post request token now user_id w :
  authenticated hmac_sha256 token now user_id ->
  add_post hmac_sha256 post request token now w =
    match add_post_to_db_and_cache post user_id request now w with
    | (Return new_post, w') => (Return (PostID (Post_id new_post)), w')
    | (Raise e, w') => (Raise e, w')
    end.
Proof.
  intros Hauth. unfold add_post, bind at 1.
  rewrite (current_user_id_authenticated _ _ _ _ Hauth).
  unfold bind, ret. by destruct (add_post_to_db_and_cache _ _ _ _ _) as [[?|?] ?].
Qed.

Lemma get_posts_route token now user_id w :
  authenticated hmac_sha256 token now user_id ->
  get_posts hmac_sha256 token now w =
    match get_user_posts_from_cache_or_db user_id now w with
    | (Return l, w') => (Return (Posts l), w')
    | (Raise e, w') => (Raise e, w')
    end.
Proof.
  intros Hauth. unfold get_posts, bind at 1.
  rewrite (current_user_id_authenticated _ _ _ _ Hauth).
  unfold bind, ret. by destruct (get_user_posts_from_cache_or_db _ _ _) as [[?|?] ?].
Qed.

Lemma delete_post_route post_id token now user_id w :
  authenticated hmac_sha256 token now user_id ->
  delete_post hmac_sha256 post_id token now w =
    match delete_post_from_db_and_cache post_id user_id now w with
    | (Return _, w') => (Return (DeletePostResponse true "Post deleted successfully"), w')
    | (Raise e, w') => (Raise e, w')
    end.
Proof.
  intros Hauth. unfold delete_post, bind at 1.
  rewrite (current_user_id_authenticated _ _ _ _ Hauth).
  unfold bind, ret. by destruct (delete_post_from_db_and_cache _ _ _ _) as [[?|?] ?].
Qed.

End Handlers.

(** * What every write to the cache preserves *)

Section Preservation.
Import TTLCache.

Variable P : entry -> Prop.

Lemma Forall_kept (Q : entry -> Prop) `{!forall e, Decision (Q e)} (c : list entry) :
  Forall P c -> Forall P (filter Q c).
Proof.
  rewrite !Forall_forall. intros HP e He.
  apply list_elem_of_filter in He as [_ He]. by apply HP.
Qed.

Lemma Forall_move_to_end k c : Forall P c -> Forall P (move_to_end k c).
Proof. intros H. apply Forall_app_2; by apply Forall_kept. Qed.

Lemma Forall_get k time c : Forall P c -> Forall P (snd (get k time c)).
Proof.
  intros H. unfold get. destruct (contains k time c); [|done].
  by apply Forall_move_to_end.
Qed.

Lemma Forall_make_room c : Forall P c -> Forall P (make_room c).
Proof.
  induction 1 as [|e c He Hc IH]; [done|]. simpl.
  destruct (maxsize <? _); [done | by constructor].
Qed.

Lemma Forall_setitem k v time c :
  P (mkEntry k v (time + ttl)) -> Forall P c -> Forall P (setitem k v time c).
Proof.
  intros Hnew H. unfold setitem. apply Forall_app_2; [|by apply Forall_singleton].
  apply Forall_kept. destruct (find k (expire time c)).
  - by apply Forall_kept.
  - by apply Forall_make_room, Forall_kept.
Qed.

Lemma Forall_append k x c :
  (forall e, key e = k -> P e -> P (mkEntry (key e) (value e ++ [x]) (expires e))) ->
  Forall P c -> Forall P (append k x c).
Proof.
  intros Hgrow H. unfold append. apply Forall_fmap.
  eapply Forall_impl; [exact H|]. intros e He. unfold compose, grow.
  case_decide; [by apply Hgrow | done].
Qed.

End Preservation.

Lemma Forall_kept_posts (P Q : CachedPost -> Prop) `{!forall x, Decision (Q x)}
    (l : list CachedPost) :
  Forall P l -> Forall P (filter Q l).
Proof.
  rewrite !Forall_forall. intros HP x Hx.
  apply list_elem_of_filter in Hx as [_ Hx]. by apply HP.
Qed.

Section Invariants.

Variable hmac_sha256 : string -> Header -> Payload -> string.

(** A call either is refused before it touches anything, or runs its
    controller for the subject of the token. *)
Lemma serve_cases now call w :
  snd (serve hmac_sha256 now call w) = w \/
  exists user_id,
    match call with
    | AddPost post request token =>
        authenticated hmac_sha256 token now user_id /\
        snd (serve hmac_sha256 now call w) =
          snd (add_post_to_db_and_cache post user_id request now w)
    | GetPosts token =>
        authenticated hmac_sha256 token now user_id /\
        snd (serve hmac_sha256 now call w) =
          snd (get_user_posts_from_cache_or_db user_id now w)
    | DeletePost post_id token =>
        authenticated hmac_sha256 token now user_id /\
        snd (serve hmac_sha256 now call w) =
          snd (delete_post_from_db_and_cache post_id user_id now w)
    end.
Proof.
  destruct call as [post request token | token | post_id token]; simpl;
    (destruct (current_user_id hmac_sha256 token now w) as [[user_id|e] w'] eqn:Hid;
     [ apply current_user_id_Return in Hid as [Hauth ->]; right; exists user_id;
       split; [done|]
     | left; pose proof (current_user_id_state hmac_sha256 token now w) as Hw;
       rewrite Hid in Hw; simpl in Hw; subst w' ]).
  - by rewrite (add_post_route _ _ _ _ _ _ _ Hauth);
      destruct (add_post_to_db_and_cache _ _ _ _ _) as [[?|?] ?].
  - unfold add_post, bind. by rewrite Hid.
  - by rewrite (get_posts_route _ _ _ _ _ Hauth);
      destruct (get_user_posts_from_cache_or_db _ _ _) as [[?|?] ?].
  - unfold get_posts, bind. by rewrite Hid.
  - by rewrite (delete_post_route _ _ _ _ _ _ Hauth);
      destruct (delete_post_from_db_and_cache _ _ _ _) as [[?|?] ?].
  - unfold delete_post, bind. by rewrite Hid.
Qed.

(** *** The cache a controller leaves *)

Lemma add_post_cache post user_id request now w :
  let hit := TTLCache.get user_id (monotonic now) (cache w) in
  cache (snd (add_post_to_db_and_cache post user_id request now w)) = cache w \/
  cache (snd (add_post_to_db_and_cache post user_id request now w)) = snd hit \/
  (exists x l, fst hit = Some l /\ l <> [] /\ cached_owner_id x = user_id /\
     cache (snd (add_post_to_db_and_cache post user_id request now w)) =
       TTLCache.append user_id x (snd hit)).
Proof.
  intros hit.
  destruct (Z.lt_ge_cases 1000000 (body_size request)) as [Hbig|Hok].
  - left. by rewrite add_post_too_large.
  - right. rewrite add_post_accepted by lia. simpl. fold hit.
    destruct (fst hit) as [[|x l]|] eqn:Hhit; simpl; [by left | | by left].
    right. eexists _, _. by repeat split.
Qed.

Lemma list_posts_cache user_id now w :
  let hit := TTLCache.get user_id (monotonic now) (cache w) in
  cache (snd (get_user_posts_from_cache_or_db user_id now w)) = snd hit \/
  (exists p rows,
     filter (fun p => Post_owner_id p = user_id) (posts (db w)) = p :: rows /\
     cache (snd (get_user_posts_from_cache_or_db user_id now w)) =
       TTLCache.setitem user_id (Row <$> p :: rows) (monotonic now) (snd hit)).
Proof.
  intros hit.
  destruct (truthy (fst hit)) eqn:Htruthy.
  - left. destruct (fst hit) as [[|x l]|] eqn:Hhit; try done.
    rewrite (list_posts_hit _ _ _ (x :: l)) by done. simpl.
    symmetry. by eapply TTLCacheFacts.get_hit.
  - rewrite list_posts_miss by done. simpl. fold hit.
    destruct (filter _ _) as [|p rows] eqn:Hrows; [by left|].
    right. by eexists _, _.
Qed.

Lemma delete_post_cache post_id user_id now w :
  let hit := TTLCache.get user_id (monotonic now) (cache w) in
  cache (snd (delete_post_from_db_and_cache post_id user_id now w)) = cache w \/
  cache (snd (delete_post_from_db_and_cache post_id user_id now w)) = snd hit \/
  (exists l, fst hit = Some l /\
     cache (snd (delete_post_from_db_and_cache post_id user_id now w)) =
       TTLCache.setitem user_id (filter (fun p => cached_id p <> post_id) l)
         (monotonic now) (snd hit)).
Proof.
  intros hit.
  destruct (head (filter (fun p => Post_id p = post_id /\ Post_owner_id p = user_id)
                    (posts (db w)))) as [post|] eqn:Hpost.
  - right. rewrite (delete_post_done _ _ _ _ post) by done. simpl. fold hit.
    destruct (fst hit) as [[|x l]|] eqn:Hhit; simpl; [by left | | by left].
    right. by eexists.
  - left. rewrite delete_post_refused; [done|].
    intros p Hp Hid Hown. apply head_None in Hpost.
    eapply filter_nil_not_elem_of; [exact Hpost | | exact Hp]. done.
Qed.

Lemma filed_by_owner_hit user_id time c l :
  filed_by_owner c ->
  fst (TTLCache.get user_id time c) = Some l ->
  Forall (fun x => cached_owner_id x = user_id) l.
Proof.
  intros Hinv Hget. apply TTLCacheFacts.get_Some in Hget as (e & Hfind & _ & <-).
  apply TTLCacheFacts.find_Some in Hfind as [<- He].
  unfold filed_by_owner in Hinv. rewrite Forall_forall in Hinv. by apply Hinv.
Qed.

Lemma filed_by_owner_serve now call w :
  filed_by_owner (cache w) ->
  filed_by_owner (cache (snd (serve hmac_sha256 now call w))).
Proof.
  intros Hinv.
  destruct (serve_cases now call w) as [-> | [user_id Hcase]]; [done|].
  destruct call as [post request token | token | post_id token];
    destruct Hcase as [_ ->].
  - destruct (add_post_cache post user_id request now w)
      as [-> | [-> | (x & l & _ & _ & Hx & ->)]]; [done | by apply Forall_get |].
    apply Forall_append; [|by apply Forall_get].
    intros e He Hown. simpl. apply Forall_app_2; [done|].
    apply Forall_singleton. congruence.
  - destruct (list_posts_cache user_id now w)
      as [-> | (p & rows & Hrows & ->)]; [by apply Forall_get|].
    apply Forall_setitem; [|by apply Forall_get].
    cbn [TTLCache.value TTLCache.key].
    apply Forall_fmap, Forall_forall. intros q Hq. rewrite <-Hrows in Hq.
    by apply list_elem_of_filter in Hq as [Hq _].
  - destruct (delete_post_cache post_id user_id now w)
      as [-> | [-> | (l & Hhit & ->)]]; [done | by apply Forall_get |].
    apply Forall_setitem; [|by apply Forall_get]. simpl.
    apply Forall_kept_posts. by eapply filed_by_owner_hit.
Qed.

Lemma filed_by_owner_run calls w :
  filed_by_owner (cache w) ->
  filed_by_owner (cache (run hmac_sha256 calls w)).
Proof.
  revert w. induction calls as [|[now call] calls IH]; intros w Hinv; [done|].
  simpl. by apply IH, filed_by_owner_serve.
Qed.

(** What a successful [deletePost] does to the cache, with what made it so. *)
Lemma delete_post_cache_rewritten post_id user_id now w :
  let hit := TTLCache.get user_id (monotonic now) (cache w) in
  cache (snd (delete_post_from_db_and_cache post_id user_id now w)) = cache w \/
  cache (snd (delete_post_from_db_and_cache post_id user_id now w)) = snd hit \/
  (exists post l,
     post ∈ posts (db w) /\ Post_id post = post_id /\ Post_owner_id post = user_id /\
     fst hit = Some l /\ l <> [] /\
     cache (snd (delete_post_from_db_and_cache post_id user_id now w)) =
       TTLCache.setitem user_id (filter (fun p => cached_id p <> post_id) l)
         (monotonic now) (snd hit)).
Proof.
  intros hit.
  destruct (head (filter (fun p => Post_id p = post_id /\ Post_owner_id p = user_id)
                    (posts (db w)))) as [post|] eqn:Hpost.
  - right. rewrite (delete_post_done _ _ _ _ post) by done. simpl. fold hit.
    apply head_Some_elem_of, list_elem_of_filter in Hpost as [[Hid Hown] Hin].
    destruct (fst hit) as [[|x l]|] eqn:Hhit; simpl; [by left | | by left].
    right. exists post, (x :: l). by repeat split.
  - left. rewrite delete_post_refused; [done|].
    intros p Hp Hid Hown. apply head_None in Hpost.
    eapply filter_nil_not_elem_of; [exact Hpost | | exact Hp]. done.
Qed.

Lemma nonempty_entries_serve now call w :
  ~ empties_entry hmac_sha256 now call w ->
  nonempty_entries (cache w) ->
  nonempty_entries (cache (snd (serve hmac_sha256 now call w))).
Proof.
  intros Hcall Hinv.
  destruct (serve_cases now call w) as [-> | [user_id Hcase]]; [done|].
  destruct call as [post request token | token | post_id token];
    destruct Hcase as [Hauth ->].
  - destruct (add_post_cache post user_id request now w)
      as [-> | [-> | (x & l & _ & _ & _ & ->)]]; [done | by apply Forall_get |].
    apply Forall_append; [|by apply Forall_get].
    intros e _ _. simpl. by destruct (TTLCache.value e).
  - destruct (list_posts_cache user_id now w)
      as [-> | (p & rows & _ & ->)]; [by apply Forall_get|].
    apply Forall_setitem; [done | by apply Forall_get].
  - destruct (delete_post_cache_rewritten post_id user_id now w)
      as [-> | [-> | (post & l & Hin & Hid & Hown & Hhit & Hne & ->)]];
      [done | by apply Forall_get |].
    apply Forall_setitem; [|by apply Forall_get].
    cbn [TTLCache.value]. intros Hempty. apply Hcall.
    exists user_id, l. repeat split; eauto.
Qed.

Lemma nonempty_entries_run calls w :
  never_empties hmac_sha256 calls w ->
  nonempty_entries (cache w) ->
  nonempty_entries (cache (run hmac_sha256 calls w)).
Proof.
  revert w. induction calls as [|[now call] calls IH]; intros w Hcalls Hinv; [done|].
  destruct Hcalls as [Hcall Hrest]. simpl. apply IH; [done|].
  by apply nonempty_entries_serve.
Qed.

End Invariants.

(** * The claims *)

Section Claims.

Variable hmac_sha256 : string -> Header -> Payload -> string.

(** C7: for every token, verification gives one uniform unauthorized
    outcome whenever the structure is malformed, the signature check fails
    or the expiry has passed: [decode_access_token] returns [None] and
    [get_current_user] raises 401 "Invalid token", whichever the cause. *)
Theorem C7_uniform_unauthorized token now :
  verification_fails hmac_sha256 token now ->
  decode_access_token hmac_sha256 token now = None /\
  get_current_user hmac_sha256 token now =
    Raise (HTTPException HTTP_401_UNAUTHORIZED "Invalid token").
Proof.
  intros Hfail.
  destruct (verification_fails_decode _ _ _ Hfail) as [e He].
  by eapply decode_error_uniform.
Qed.


(** C6: [addPost] fails with 413 "Payload too large" exactly when the body
    is larger than 1,000,000 bytes; then nothing is written, neither to the
    store nor to the cache; a body of at most 1,000,000 bytes is accepted. *)
Theorem C6_payload_limit post request token now user_id w :
  authenticated hmac_sha256 token now user_id ->
  let out := add_post hmac_sha256 post request token now w in
  (fst out = Raise (HTTPException HTTP_413_REQUEST_ENTITY_TOO_LARGE "Payload too large")
     <-> 1000000 < body_size request) /\
  (1000000 < body_size request -> snd out = w) /\
  (body_size request <= 1000000 -> fst out = Return (PostID (next_id (db w)))).
Proof.
  intros Hauth out. subst out.
  rewrite (add_post_route _ _ _ _ _ _ _ Hauth).
  destruct (Z.lt_ge_cases 1000000 (body_size request)) as [Hbig|Hok].
  - rewrite add_post_too_large by done. simpl. repeat split; try done. lia.
  - rewrite add_post_accepted by lia. simpl. repeat split; try done; try lia.
Qed.

(** C5: when the caller holds a valid token and the post id names a post of
    another user, or no post at all, [deletePost] fails with the one answer
    404 "Post not found or not owned by the user", and the rows of the store
    and the cache are as before. *)
Theorem C5_delete_not_owned post_id token now user_id w :
  authenticated hmac_sha256 token now user_id ->
  (forall p, p ∈ posts (db w) -> Post_id p = post_id -> Post_owner_id p <> user_id) ->
  let out := delete_post hmac_sha256 post_id token now w in
  fst out = Raise (HTTPException HTTP_404_NOT_FOUND
                     "Post not found or not owned by the user") /\
  posts (db (snd out)) = posts (db w) /\
  cache (snd out) = cache w.
Proof.
  intros Hauth Hnone out. subst out.
  rewrite (delete_post_route _ _ _ _ _ _ Hauth).
  by rewrite delete_post_refused.
Qed.

(** C4: for an owner with at least one stored post and no live cache
    entry, [listPosts] queries the store once, stores the rows in the cache
    and returns them; a second [listPosts] for the same owner, made before
    the entry's time to live is over, returns the same posts without any
    statement reaching the store. *)
Theorem C4_cold_read_warms_cache token now now' user_id w :
  authenticated hmac_sha256 token now user_id ->
  authenticated hmac_sha256 token now' user_id ->
  monotonic now' < monotonic now + TTLCache.ttl ->
  TTLCache.contains user_id (monotonic now) (cache w) = false ->
  let rows := filter (fun p => Post_owner_id p = user_id) (posts (db w)) in
  rows <> [] ->
  let first := get_posts hmac_sha256 token now w in
  let second := get_posts hmac_sha256 token now' (snd first) in
  fst first = Return (Posts (from_orm <$> rows)) /\
  db (snd first) = executed (SelectByOwner user_id) (db w) /\
  fst (TTLCache.get user_id (monotonic now') (cache (snd first))) = Some (Row <$> rows) /\
  fst second = Return (Posts (from_orm <$> rows)) /\
  db (snd second) = db (snd first).
Proof.
  intros Hauth Hauth' Hlive Hcold rows Hrows first second.
  destruct (TTLCacheFacts.contains_false_get _ _ _ Hcold) as [Hnone Hsame].
  assert (first =
          (Return (Posts (from_orm <$> rows)),
           mkWorld (executed (SelectByOwner user_id) (db w))
             (TTLCache.setitem user_id (Row <$> rows) (monotonic now) (cache w))))
    as Hfirst.
  { subst first. rewrite (get_posts_route _ _ _ _ _ Hauth).
    rewrite list_posts_miss by (by rewrite Hnone). simpl.
    rewrite Hsame. fold rows. by destruct rows. }
  assert (fst (TTLCache.get user_id (monotonic now') (cache (snd first)))
          = Some (Row <$> rows)) as Hhit.
  { rewrite Hfirst. simpl. by apply TTLCacheFacts.get_setitem. }
  assert (Row <$> rows <> []) as Hne by (by destruct rows).
  subst second. rewrite (get_posts_route _ _ _ _ _ Hauth').
  rewrite (list_posts_hit _ _ _ _ Hhit Hne). simpl.
  rewrite Hfirst in *. simpl. repeat split; try done.
  by rewrite <-list_fmap_compose.
Qed.

(** C2: for a user who owns no post and has no live cache entry,
    [listPosts] fails with 404 "No posts found" and leaves the cache as it
    was; so does every later [listPosts] of that user, and each of them
    queries the store again. *)
Theorem C2_zero_posts_never_cached token user_id now0 (nows : list Clock) w :
  filter (fun p => Post_owner_id p = user_id) (posts (db w)) = [] ->
  TTLCache.contains user_id (monotonic now0) (cache w) = false ->
  Forall (fun now => authenticated hmac_sha256 token now user_id /\
                     monotonic now0 <= monotonic now) nows ->
  let calls := (fun now => (now, GetPosts token)) <$> nows in
  answers hmac_sha256 calls w =
    replicate (length nows) (Raise (HTTPException HTTP_404_NOT_FOUND "No posts found")) /\
  cache (run hmac_sha256 calls w) = cache w /\
  posts (db (run hmac_sha256 calls w)) = posts (db w) /\
  statements (db (run hmac_sha256 calls w)) =
    statements (db w) ++ replicate (length nows) (SelectByOwner user_id).
Proof.
  intros Hnone Hcold Hnows. revert w Hnone Hcold.
  induction Hnows as [|now nows [Hauth Hlater] _ IH]; intros w Hnone Hcold.
  - simpl. by rewrite app_nil_r.
  - pose proof (TTLCacheFacts.contains_later _ _ _ _ Hlater Hcold) as Hcold'.
    destruct (TTLCacheFacts.contains_false_get _ _ _ Hcold') as [Hget Hsame].
    assert (get_posts hmac_sha256 token now w =
            (Raise (HTTPException HTTP_404_NOT_FOUND "No posts found"),
             mkWorld (executed (SelectByOwner user_id) (db w)) (cache w))) as Hstep.
    { rewrite (get_posts_route _ _ _ _ _ Hauth).
      rewrite list_posts_miss by (by rewrite Hget). simpl.
      by rewrite Hnone, Hsame. }
    rewrite fmap_cons. cbn [answers run serve length replicate].
    rewrite Hstep. cbn [fst snd].
    destruct (IH (mkWorld (executed (SelectByOwner user_id) (db w)) (cache w)))
      as (Hans & Hcache & Hposts & Hlog); [done | done |].
    rewrite Hans, Hcache, Hposts, Hlog. simpl.
    by rewrite <-app_assoc.
Qed.

(** C1 (amended): for an owner whose cache entry is live and holds at least
    one post, [addPost] with a valid token and a body within the limit,
    followed at once by [listPosts] for the same owner, returns the cached
    posts followed by the new post, and no statement reaches the store
    during that [listPosts]. *)
Theorem C1_add_then_list_warm post request token now user_id w l :
  authenticated hmac_sha256 token now user_id ->
  body_size request <= 1000000 ->
  fst (TTLCache.get user_id (monotonic now) (cache w)) = Some l ->
  l <> [] ->
  let new_post := mkPost (next_id (db w)) (PostCreate_text post) user_id in
  let added := add_post hmac_sha256 post request token now w in
  let listed := get_posts hmac_sha256 token now (snd added) in
  fst added = Return (PostID (Post_id new_post)) /\
  fst listed = Return (Posts ((from_orm_cached <$> l) ++ [from_orm new_post])) /\
  from_orm new_post ∈ (from_orm_cached <$> l) ++ [from_orm new_post] /\
  db (snd listed) = db (snd added).
Proof.
  intros Hauth Hsize Hget Hne new_post added listed.
  assert (added =
          (Return (PostID (Post_id new_post)),
           mkWorld (snd (add_and_commit (PostCreate_text post) user_id (db w)))
             (TTLCache.append user_id (Resp (from_orm new_post))
                (snd (TTLCache.get user_id (monotonic now) (cache w))))))
    as Hadded.
  { subst added. rewrite (add_post_route _ _ _ _ _ _ _ Hauth).
    rewrite add_post_accepted by done. simpl. rewrite Hget.
    by destruct l. }
  pose proof (TTLCacheFacts.get_append _ (Resp (from_orm new_post)) _ _ _ Hget)
    as Hget'.
  assert (l ++ [Resp (from_orm new_post)] <> []) as Hne' by (by destruct l).
  subst listed. rewrite (get_posts_route _ _ _ _ _ Hauth). rewrite Hadded.
  cbn [fst snd].
  rewrite (list_posts_hit _ _ _ (l ++ [Resp (from_orm new_post)])) by done.
  cbn [fst snd db]. rewrite fmap_app. repeat split.
  apply elem_of_app. right. left.
Qed.

(** C9 (amended): the cache patch of [addPost] appends the created post to
    the owner's entry whenever that entry is live and non-empty; when the
    entry is missing, expired or empty no cached list changes; [addPost]
    never creates an entry, and the entries of other owners stay as they
    were. *)
Theorem C9_append_only_to_warm_entry post request token now user_id w :
  authenticated hmac_sha256 token now user_id ->
  let new_post := mkPost (next_id (db w)) (PostCreate_text post) user_id in
  let c := cache w in
  let c' := cache (snd (add_post hmac_sha256 post request token now w)) in
  (body_size request <= 1000000 ->
   forall l, fst (TTLCache.get user_id (monotonic now) c) = Some l -> l <> [] ->
     fst (TTLCache.get user_id (monotonic now) c') = Some (l ++ [Resp (from_orm new_post)])) /\
  (truthy (fst (TTLCache.get user_id (monotonic now) c)) = false ->
     forall k, TTLCache.find k c' = TTLCache.find k c) /\
  (TTLCache.contains user_id (monotonic now) c = false -> c' = c) /\
  (forall k, TTLCache.find k c = None -> TTLCache.find k c' = None) /\
  (forall k, k <> user_id -> TTLCache.find k c' = TTLCache.find k c).
Proof.
  intros Hauth new_post c c'.
  assert (1000000 < body_size request /\ c' = c \/
          body_size request <= 1000000 /\
          c' = if truthy (fst (TTLCache.get user_id (monotonic now) c))
               then TTLCache.append user_id (Resp (from_orm new_post))
                      (snd (TTLCache.get user_id (monotonic now) c))
               else snd (TTLCache.get user_id (monotonic now) c)) as Hc'.
  { subst c'. rewrite (add_post_route _ _ _ _ _ _ _ Hauth).
    destruct (Z.lt_ge_cases 1000000 (body_size request)) as [Hbig|Hok].
    - left. by rewrite add_post_too_large.
    - right. split; [lia|]. rewrite add_post_accepted by lia. done. }
  clearbody c'. split; [|split; [|split; [|split]]].
  - intros Hok l Hget Hne. destruct Hc' as [[? _] | [_ ->]]; [lia|].
    rewrite Hget. destruct l; [done|]. simpl truthy. cbv iota.
    by apply TTLCacheFacts.get_append.
  - intros Hcold k. destruct Hc' as [[_ ->] | [_ ->]]; [done|].
    rewrite Hcold. apply TTLCacheFacts.find_get.
  - intros Hmiss. destruct Hc' as [[_ ->] | [_ ->]]; [done|].
    by rewrite TTLCacheFacts.get_miss.
  - intros k Hk. destruct Hc' as [[_ ->] | [_ ->]]; [done|].
    destruct (truthy _).
    + by rewrite TTLCacheFacts.find_append, TTLCacheFacts.find_get, Hk.
    + by rewrite TTLCacheFacts.find_get.
  - intros k Hk. destruct Hc' as [[_ ->] | [_ ->]]; [done|].
    destruct (truthy _); [|apply TTLCacheFacts.find_get].
    rewrite TTLCacheFacts.find_append, TTLCacheFacts.find_get.
    destruct (TTLCache.find k c) as [e|] eqn:Hfind; [|done]. simpl.
    apply TTLCacheFacts.find_Some in Hfind as [He _].
    unfold TTLCache.grow. rewrite decide_False by congruence. done.
Qed.

(** C3 (amended): after every sequence of [addPost], [listPosts] and
    [deletePost] calls on a freshly started service in which no [deletePost]
    takes the last post out of the caller's live cached list, no cache entry
    holds an empty list. A [deletePost] that does take the last post out
    leaves the caller's entry present, with an empty list and a fresh expiry.
    An entry holding an empty list is read as a miss: [listPosts] goes to the
    store. *)
Theorem C3_empty_entry_only_by_emptying_delete :
  (forall calls d,
     never_empties hmac_sha256 calls (startup d) ->
     forall e, e ∈ cache (run hmac_sha256 calls (startup d)) -> TTLCache.value e <> []) /\
  (forall now post_id token w,
     empties_entry hmac_sha256 now (DeletePost post_id token) w ->
     exists user_id,
       authenticated hmac_sha256 token now user_id /\
       TTLCache.find user_id
         (cache (snd (serve hmac_sha256 now (DeletePost post_id token) w))) =
         Some (TTLCache.mkEntry user_id [] (monotonic now + TTLCache.ttl))) /\
  (forall token now user_id w,
     authenticated hmac_sha256 token now user_id ->
     fst (TTLCache.get user_id (monotonic now) (cache w)) = Some [] ->
     statements (db (snd (get_posts hmac_sha256 token now w))) =
       statements (db w) ++ [SelectByOwner user_id]).
Proof.
  split; [|split].
  - intros calls d Hcalls.
    apply Forall_forall, nonempty_entries_run; [done|]. by constructor.
  - intros now post_id token w
      (user_id & l & Hauth & (post & Hin & Hid & Hown) & Hhit & Hne & Hempty).
    exists user_id. split; [done|]. cbn [serve].
    rewrite (delete_post_route _ _ _ _ _ _ Hauth).
    destruct (owned_post_found post_id user_id w post Hin Hid Hown)
      as (found & Hfound & _).
    rewrite (delete_post_done _ _ _ _ found Hfound). cbv zeta. cbn [snd cache].
    rewrite Hhit. destruct l as [|x l]; [done|]. cbn [truthy default].
    unfold id. rewrite Hempty. apply TTLCacheFacts.find_setitem.
  - intros token now user_id w Hauth Hget.
    rewrite (get_posts_route _ _ _ _ _ Hauth).
    rewrite list_posts_miss by (by rewrite Hget). simpl.
    by destruct (filter _ _).
Qed.

(** C10: every post a successful [listPosts] returns carries the
    [owner_id] that the subject of the presented token reads as; this holds
    in every state the service reaches from its start. *)
Theorem C10_only_own_posts calls d token now user_id l :
  let w := run hmac_sha256 calls (startup d) in
  authenticated hmac_sha256 token now user_id ->
  fst (get_posts hmac_sha256 token now w) = Return (Posts l) ->
  Forall (fun p => PostResponse_owner_id p = user_id) l.
Proof.
  intros w Hauth. rewrite (get_posts_route _ _ _ _ _ Hauth).
  assert (filed_by_owner (cache w)) as Hinv
    by (apply filed_by_owner_run; constructor).
  destruct (truthy (fst (TTLCache.get user_id (monotonic now) (cache w)))) eqn:Hhit.
  - destruct (fst (TTLCache.get user_id (monotonic now) (cache w)))
      as [[|x l0]|] eqn:Hget; try done.
    rewrite (list_posts_hit _ _ _ _ Hget) by done. cbn [fst]. intros Heq.
    replace l with (from_orm_cached <$> x :: l0) by congruence.
    apply Forall_fmap. by eapply filed_by_owner_hit.
  - rewrite list_posts_miss by done. cbv zeta.
    destruct (filter _ _) as [|p rows] eqn:Hrows; cbn [fst]; [done|].
    intros Heq. replace l with (from_orm <$> p :: rows) by congruence.
    apply Forall_fmap, Forall_forall. intros q Hq.
    rewrite <-Hrows in Hq. by apply list_elem_of_filter in Hq as [Hq _].
Qed.

End Claims.

(** * The claims on the sample data *)

Lemma alice_authenticated : authenticated Sample.mac Sample.alice Sample.noon 1.
Proof. eexists. split; vm_compute; reflexivity. Defined.

Lemma bob_authenticated : authenticated Sample.mac Sample.bob Sample.noon 2.
Proof. eexists. split; vm_compute; reflexivity. Defined.

Lemma body_size_of_size n : 0 <= n -> body_size (Sample.of_size n) = n.
Proof.
  intros Hn. unfold body_size, Sample.of_size. cbn [Request_body].
  rewrite length_replicate. lia.
Qed.

Lemma C7_uniform_unauthorized_witness :
  let refused := Raise (HTTPException HTTP_401_UNAUTHORIZED "Invalid token") in
  (verification_fails Sample.mac (Garbage "not-a-token") Sample.noon /\
   get_current_user Sample.mac (Garbage "not-a-token") Sample.noon = refused) /\
  (verification_fails Sample.mac Sample.forged Sample.noon /\
   get_current_user Sample.mac Sample.forged Sample.noon = refused) /\
  (verification_fails Sample.mac Sample.alice Sample.later /\
   get_current_user Sample.mac Sample.alice Sample.later = refused).
Proof.
  assert (verification_fails Sample.mac (Garbage "not-a-token") Sample.noon) as H1
    by (by eapply malformed).
  assert (verification_fails Sample.mac Sample.forged Sample.noon) as H2.
  { eapply signature_fails; [reflexivity|]. vm_compute. discriminate. }
  assert (verification_fails Sample.mac Sample.alice Sample.later) as H3.
  { eapply (expiry_passed _ _ _ _ _ _ 2800); [reflexivity| |].
    - vm_compute. reflexivity.
    - vm_compute. discriminate. }
  intros refused. split; [|split]; (split; [assumption|]).
  - exact (proj2 (C7_uniform_unauthorized Sample.mac _ _ H1)).
  - exact (proj2 (C7_uniform_unauthorized Sample.mac _ _ H2)).
  - exact (proj2 (C7_uniform_unauthorized Sample.mac _ _ H3)).
Defined.



Lemma C6_payload_limit_witness :
  authenticated Sample.mac Sample.alice Sample.noon 1 /\
  fst (add_post Sample.mac Sample.hello (Sample.of_size 1000000)
         Sample.alice Sample.noon Sample.fresh) = Return (PostID 1) /\
  fst (add_post Sample.mac Sample.hello (Sample.of_size 1000001)
         Sample.alice Sample.noon Sample.fresh)
    = Raise (HTTPException HTTP_413_REQUEST_ENTITY_TOO_LARGE "Payload too large") /\
  snd (add_post Sample.mac Sample.hello (Sample.of_size 1000001)
         Sample.alice Sample.noon Sample.fresh) = Sample.fresh.
Proof.
  split; [exact alice_authenticated|].
  pose proof (C6_payload_limit Sample.mac Sample.hello (Sample.of_size 1000000)
                Sample.alice Sample.noon 1 Sample.fresh alice_authenticated)
    as (_ & _ & Hok).
  pose proof (C6_payload_limit Sample.mac Sample.hello (Sample.of_size 1000001)
                Sample.alice Sample.noon 1 Sample.fresh alice_authenticated)
    as (Hiff & Hsame & _).
  split; [|split].
  - apply Hok. rewrite body_size_of_size; lia.
  - apply Hiff. rewrite body_size_of_size; lia.
  - apply Hsame. rewrite body_size_of_size; lia.
Defined.

Lemma C5_delete_not_owned_witness :
  authenticated Sample.mac Sample.bob Sample.noon 2 /\
  posts (db Sample.cold) = [mkPost 1 "hello" 1] /\
  fst (delete_post Sample.mac 1 Sample.bob Sample.noon Sample.cold)
    = Raise (HTTPException HTTP_404_NOT_FOUND "Post not found or not owned by the user") /\
  posts (db (snd (delete_post Sample.mac 1 Sample.bob Sample.noon Sample.cold)))
    = [mkPost 1 "hello" 1].
Proof.
  split; [exact bob_authenticated|].
  split; [vm_compute; reflexivity|].
  assert (forall p, p ∈ posts (db Sample.cold) -> Post_id p = 1 -> Post_owner_id p <> 2)
    as Hother.
  { intros p Hp _. vm_compute in Hp. apply list_elem_of_singleton in Hp.
    subst p. simpl. lia. }
  pose proof (C5_delete_not_owned Sample.mac 1 Sample.bob Sample.noon 2
                Sample.cold bob_authenticated Hother) as (Hout & Hrows & _).
  split; [exact Hout|]. rewrite Hrows. vm_compute. reflexivity.
Defined.

Lemma small_within_limit : body_size Sample.small <= 1000000.
Proof. vm_compute. discriminate. Qed.

Lemma C4_cold_read_warms_cache_witness :
  TTLCache.contains 1 (monotonic Sample.noon) (cache Sample.cold) = false /\
  filter (fun p => Post_owner_id p = 1) (posts (db Sample.cold)) <> [] /\
  fst (get_posts Sample.mac Sample.alice Sample.noon Sample.cold)
    = Return (Posts [mkPostResponse 1 "hello" 1]) /\
  fst (get_posts Sample.mac Sample.alice Sample.noon
         (snd (get_posts Sample.mac Sample.alice Sample.noon Sample.cold)))
    = Return (Posts [mkPostResponse 1 "hello" 1]) /\
  db (snd (get_posts Sample.mac Sample.alice Sample.noon
             (snd (get_posts Sample.mac Sample.alice Sample.noon Sample.cold))))
    = db (snd (get_posts Sample.mac Sample.alice Sample.noon Sample.cold)).
Proof.
  assert (monotonic Sample.noon < monotonic Sample.noon + TTLCache.ttl) as Hlive
    by (vm_compute; reflexivity).
  assert (TTLCache.contains 1 (monotonic Sample.noon) (cache Sample.cold) = false)
    as Hcold by (vm_compute; reflexivity).
  assert (filter (fun p => Post_owner_id p = 1) (posts (db Sample.cold)) <> [])
    as Hrows by (vm_compute; discriminate).
  pose proof (C4_cold_read_warms_cache Sample.mac Sample.alice Sample.noon Sample.noon
                1 Sample.cold alice_authenticated alice_authenticated
                Hlive Hcold Hrows) as (Hfirst & _ & _ & Hsecond & Hdb).
  split; [exact Hcold|]. split; [exact Hrows|].
  split; [exact Hfirst|]. split; [exact Hsecond | exact Hdb].
Defined.

Lemma C2_zero_posts_never_cached_witness :
  let twice := [(Sample.noon, GetPosts Sample.alice); (Sample.noon, GetPosts Sample.alice)] in
  answers Sample.mac twice Sample.fresh =
    [Raise (HTTPException HTTP_404_NOT_FOUND "No posts found");
     Raise (HTTPException HTTP_404_NOT_FOUND "No posts found")] /\
  cache (run Sample.mac twice Sample.fresh) = cache Sample.fresh /\
  statements (db (run Sample.mac twice Sample.fresh)) = [SelectByOwner 1; SelectByOwner 1].
Proof.
  intros twice.
  assert (filter (fun p => Post_owner_id p = 1) (posts (db Sample.fresh)) = [])
    as Hnone by reflexivity.
  assert (TTLCache.contains 1 (monotonic Sample.noon) (cache Sample.fresh) = false)
    as Hcold by reflexivity.
  assert (Forall (fun now => authenticated Sample.mac Sample.alice now 1 /\
                             monotonic Sample.noon <= monotonic now)
            [Sample.noon; Sample.noon]) as Hnows.
  { repeat constructor; try exact alice_authenticated; vm_compute; discriminate. }
  pose proof (C2_zero_posts_never_cached Sample.mac Sample.alice 1 Sample.noon
                [Sample.noon; Sample.noon] Sample.fresh Hnone Hcold Hnows)
    as (Hans & Hcache & _ & Hlog).
  split; [exact Hans|]. split; [exact Hcache | exact Hlog].
Defined.

Lemma warm_entry :
  fst (TTLCache.get 1 (monotonic Sample.noon) (cache Sample.warm))
    = Some [Row (mkPost 1 "hello" 1)].
Proof. vm_compute. reflexivity. Qed.

Lemma C1_add_then_list_warm_witness :
  let added := add_post Sample.mac Sample.hello Sample.small Sample.alice
                 Sample.noon Sample.warm in
  let listed := get_posts Sample.mac Sample.alice Sample.noon (snd added) in
  fst added = Return (PostID 2) /\
  fst listed = Return (Posts [mkPostResponse 1 "hello" 1; mkPostResponse 2 "hello" 1]) /\
  db (snd listed) = db (snd added).
Proof.
  assert ([Row (mkPost 1 "hello" 1)] <> []) as Hne by discriminate.
  pose proof (C1_add_then_list_warm Sample.mac Sample.hello Sample.small Sample.alice
                Sample.noon 1 Sample.warm _ alice_authenticated small_within_limit
                warm_entry Hne) as (Hadded & Hlisted & _ & Hdb).
  intros added listed.
  split; [exact Hadded|]. split; [exact Hlisted | exact Hdb].
Defined.

(** The claim as the specification words it, for every entry that is present:
    false when the entry is present and empty, as it is after Alice deleted
    her only post. *)
Lemma C1_present_but_empty_counterexample :
  ~ (forall hmac post request token now user_id calls d,
       let w := run hmac calls (startup d) in
       let added := add_post hmac post request token now w in
       let listed := get_posts hmac token now (snd added) in
       authenticated hmac token now user_id ->
       body_size request <= 1000000 ->
       TTLCache.contains user_id (monotonic now) (cache w) = true ->
       (exists l, fst listed = Return (Posts l) /\
          from_orm (mkPost (next_id (db w)) (PostCreate_text post) user_id) ∈ l) /\
       db (snd listed) = db (snd added)).
Proof.
  intros H.
  pose proof (H Sample.mac Sample.hello Sample.small Sample.alice Sample.noon 1
                [(Sample.noon, AddPost Sample.hello Sample.small Sample.alice);
                 (Sample.noon, GetPosts Sample.alice);
                 (Sample.noon, DeletePost 1 Sample.alice)]
                (mkDatabase [] 1 [])) as H'.
  cbv zeta in H'.
  destruct (H' alice_authenticated small_within_limit) as [_ Hdb].
  - vm_compute. reflexivity.
  - vm_compute in Hdb. discriminate.
Qed.

Lemma C9_append_only_to_warm_entry_witness :
  let new := Resp (from_orm (mkPost 2 "hello" 1)) in
  let c' := cache (snd (add_post Sample.mac Sample.hello Sample.small Sample.alice
                          Sample.noon Sample.warm)) in
  fst (TTLCache.get 1 (monotonic Sample.noon) c') = Some [Row (mkPost 1 "hello" 1); new] /\
  (forall k, TTLCache.find k (cache Sample.warm) = None -> TTLCache.find k c' = None) /\
  (forall k, k <> 1 -> TTLCache.find k c' = TTLCache.find k (cache Sample.warm)).
Proof.
  assert ([Row (mkPost 1 "hello" 1)] <> []) as Hne by discriminate.
  pose proof (C9_append_only_to_warm_entry Sample.mac Sample.hello Sample.small
                Sample.alice Sample.noon 1 Sample.warm alice_authenticated)
    as (Happend & _ & _ & Hnew & Hothers).
  intros new c'.
  split; [exact (Happend small_within_limit _ warm_entry Hne)|].
  split; [exact Hnew | exact Hothers].
Defined.

(** The claim as the specification words it, an append whenever the entry is
    present: false for the empty entry a delete leaves behind. *)
Lemma C9_present_but_empty_counterexample :
  ~ (forall hmac post request token now user_id calls d,
       let w := run hmac calls (startup d) in
       let c' := cache (snd (add_post hmac post request token now w)) in
       authenticated hmac token now user_id ->
       body_size request <= 1000000 ->
       forall l, fst (TTLCache.get user_id (monotonic now) (cache w)) = Some l ->
         fst (TTLCache.get user_id (monotonic now) c') =
           Some (l ++ [Resp (from_orm (mkPost (next_id (db w)) (PostCreate_text post) user_id))])).
Proof.
  intros H.
  pose proof (H Sample.mac Sample.hello Sample.small Sample.alice Sample.noon 1
                [(Sample.noon, AddPost Sample.hello Sample.small Sample.alice);
                 (Sample.noon, GetPosts Sample.alice);
                 (Sample.noon, DeletePost 1 Sample.alice)]
                (mkDatabase [] 1 [])) as H'.
  cbv zeta in H'.
  specialize (H' alice_authenticated small_within_limit []).
  assert (Some [] = Some [Resp (from_orm (mkPost 2 "hello" 1))]) as Habs.
  { etransitivity; [|etransitivity; [apply H'|]]; vm_compute; reflexivity. }
  discriminate.
Qed.

Lemma C3_empty_entry_only_by_emptying_delete_witness :
  let calls := [(Sample.noon, AddPost Sample.hello Sample.small Sample.alice);
                (Sample.noon, AddPost Sample.hello Sample.small Sample.alice);
                (Sample.noon, GetPosts Sample.alice);
                (Sample.noon, DeletePost 1 Sample.alice)] in
  (never_empties Sample.mac calls Sample.fresh /\
   forall e, e ∈ cache (run Sample.mac calls Sample.fresh) -> TTLCache.value e <> []) /\
  (empties_entry Sample.mac Sample.noon (DeletePost 1 Sample.alice) Sample.warm /\
   exists user_id,
     authenticated Sample.mac Sample.alice Sample.noon user_id /\
     TTLCache.find user_id
       (cache (snd (serve Sample.mac Sample.noon (DeletePost 1 Sample.alice) Sample.warm))) =
       Some (TTLCache.mkEntry user_id [] (0 + TTLCache.ttl))) /\
  statements (db (snd (get_posts Sample.mac Sample.alice Sample.noon Sample.emptied)))
    = statements (db Sample.emptied) ++ [SelectByOwner 1].
Proof.
  intros calls.
  destruct (C3_empty_entry_only_by_emptying_delete Sample.mac) as (Hkeep & Hdel & Hmiss).
  assert (never_empties Sample.mac calls Sample.fresh) as Hcalls.
  { unfold calls. cbn [never_empties empties_entry]. do 3 (split; [intros []|]).
    split; [|exact I].
    intros (user_id & l & Hauth & _ & Hhit & _ & Hempty).
    rewrite (get_current_user_authenticated Sample.mac _ _ _ alice_authenticated
               _ Hauth) in Hhit.
    vm_compute in Hhit. injection Hhit as <-. vm_compute in Hempty. discriminate. }
  assert (empties_entry Sample.mac Sample.noon (DeletePost 1 Sample.alice) Sample.warm)
    as Hlast.
  { exists 1. eexists. split; [exact alice_authenticated|]. split.
    { exists (mkPost 1 "hello" 1). split; [vm_compute; left|]. by split. }
    split; [vm_compute; reflexivity|].
    split; [discriminate | vm_compute; reflexivity]. }
  split; [|split].
  - split; [exact Hcalls|]. exact (Hkeep calls (mkDatabase [] 1 []) Hcalls).
  - split; [exact Hlast|]. exact (Hdel _ _ _ _ Hlast).
  - apply (Hmiss Sample.alice Sample.noon 1 Sample.emptied alice_authenticated).
    vm_compute. reflexivity.
Defined.

(** The claim as the specification words it, for all three operations: false
    once Alice has posted, listed and deleted her only post. *)
Lemma C3_empty_entry_counterexample :
  ~ (forall hmac calls d e,
       e ∈ cache (run hmac calls (startup d)) -> TTLCache.value e <> []).
Proof.
  intros H.
  apply (H Sample.mac
           [(Sample.noon, AddPost Sample.hello Sample.small Sample.alice);
            (Sample.noon, GetPosts Sample.alice);
            (Sample.noon, DeletePost 1 Sample.alice)]
           (mkDatabase [] 1 []) (TTLCache.mkEntry 1 [] 300)).
  - vm_compute. left.
  - reflexivity.
Qed.

Lemma C10_only_own_posts_witness :
  fst (get_posts Sample.mac Sample.alice Sample.noon Sample.warm)
    = Return (Posts [mkPostResponse 1 "hello" 1]) /\
  Forall (fun p => PostResponse_owner_id p = 1) [mkPostResponse 1 "hello" 1].
Proof.
  assert (fst (get_posts Sample.mac Sample.alice Sample.noon Sample.warm)
          = Return (Posts [mkPostResponse 1 "hello" 1])) as Hlist
    by (vm_compute; reflexivity).
  split; [exact Hlist|].
  exact (C10_only_own_posts Sample.mac
           [(Sample.noon, AddPost Sample.hello Sample.small Sample.alice);
            (Sample.noon, GetPosts Sample.alice)]
           (mkDatabase [] 1 []) Sample.alice Sample.noon 1 _
           alice_authenticated Hlist).
Defined.

(** * Beyond the claims *)

(** * Python's [str] and [int] *)

Lemma clean_rev_app s1 s2 : clean (String.rev_app s1 s2) = clean s1 && clean s2.
Proof.
  revert s2. induction s1 as [|a s1 IH]; intros s2; [done|]. simpl.
  rewrite IH. simpl. by destruct (is_space a), (clean s1).
Qed.

Lemma rev_app_rev_app s1 s2 s3 :
  String.rev_app (String.rev_app s1 s2) s3 = String.rev_app s2 (s1 +:+ s3).
Proof.
  revert s2 s3. induction s1 as [|a s1 IH]; intros s2 s3; [done|].
  simpl. by rewrite IH.
Qed.

Lemma append_empty s : s +:+ "" = s.
Proof.
  induction s as [|a s IH]; [done|].
  change (String a (s +:+ "") = String a s). by rewrite IH.
Qed.

Lemma rev_rev s : String.rev (String.rev s) = s.
Proof. unfold String.rev. by rewrite rev_app_rev_app, append_empty. Qed.

Lemma lstrip_clean s : clean s = true -> lstrip s = s.
Proof. destruct s as [|a s]; [done|]. simpl. by destruct (is_space a). Qed.

Lemma strip_clean s : clean s = true -> strip s = s.
Proof.
  intros Hs. unfold strip. rewrite (lstrip_clean s Hs).
  rewrite lstrip_clean, rev_rev; [done|].
  unfold String.rev. by rewrite clean_rev_app, Hs.
Qed.

Lemma clean_string_of_uint d : clean (NilEmpty.string_of_uint d) = true.
Proof. induction d; simpl; done. Qed.

Lemma digits_string_of_uint d acc after_digit :
  digits acc after_digit (NilEmpty.string_of_uint d) =
    match d with
    | Decimal.Nil => if after_digit then Some acc else None
    | _ => Some (uint_value acc d)
    end.
Proof.
  revert acc after_digit.
  induction d as [|d IH|d IH|d IH|d IH|d IH|d IH|d IH|d IH|d IH|d IH];
    intros acc after_digit; [done|..];
    cbn [NilEmpty.string_of_uint digits]; 
    (change (digit_of "0") with (Some 0) || change (digit_of "1") with (Some 1) ||
     change (digit_of "2") with (Some 2) || change (digit_of "3") with (Some 3) ||
     change (digit_of "4") with (Some 4) || change (digit_of "5") with (Some 5) ||
     change (digit_of "6") with (Some 6) || change (digit_of "7") with (Some 7) ||
     change (digit_of "8") with (Some 8) || change (digit_of "9") with (Some 9));
    cbv iota; rewrite IH; by destruct d.
Qed.

Lemma uint_value_of_uint_acc d acc :
  Z.pos (Pos.of_uint_acc d acc) = uint_value (Z.pos acc) d.
Proof.
  revert acc. induction d; intros acc; simpl; [done|..]; rewrite IHd; f_equal; lia.
Qed.

Lemma uint_value_of_uint d : Z.of_N (Pos.of_uint d) = uint_value 0 d.
Proof.
  induction d; simpl; [done | done | ..]; by rewrite uint_value_of_uint_acc.
Qed.

Lemma uint_value_to_uint p : uint_value 0 (Pos.to_uint p) = Z.pos p.
Proof. by rewrite <-uint_value_of_uint, DecimalPos.Unsigned.of_to. Qed.

Lemma head_string_of_uint d :
  d <> Decimal.Nil ->
  exists a r, NilEmpty.string_of_uint d = String a r /\ a <> "+"%char /\ a <> "-"%char.
Proof. destruct d; [done|..]; intros _; simpl; eexists _, _; repeat split; done. Qed.

(** [int(str(n))] is [n]. *)
Lemma int_of_str_str n : int_of_str (str n) = Some n.
Proof.
  unfold str, int_of_str. destruct n as [|p|p]; [done|..].
  - cbn [Z.to_int NilZero.string_of_int].
    pose proof (DecimalPos.Unsigned.to_uint_nonnil p) as Hnn.
    assert (NilEmpty.string_of_uint (Pos.to_uint p) = NilZero.string_of_uint (Pos.to_uint p)) as <-.
    { unfold NilZero.string_of_uint. by destruct (Pos.to_uint p). }
    rewrite strip_clean by apply clean_string_of_uint.
    destruct (head_string_of_uint _ Hnn) as (a & r & Hs & Hplus & Hminus).
    assert (digits 0 false (NilEmpty.string_of_uint (Pos.to_uint p)) = Some (Z.pos p)) as Hd.
    { rewrite digits_string_of_uint, uint_value_to_uint. by destruct (Pos.to_uint p). }
    rewrite Hs in *. 
    destruct a as [[] [] [] [] [] [] [] []]; try done.
  - cbn [Z.to_int NilZero.string_of_int].
    pose proof (DecimalPos.Unsigned.to_uint_nonnil p) as Hnn.
    assert (NilEmpty.string_of_uint (Pos.to_uint p) = NilZero.string_of_uint (Pos.to_uint p)) as <-.
    { unfold NilZero.string_of_uint. by destruct (Pos.to_uint p). }
    rewrite strip_clean by (simpl; apply clean_string_of_uint).
    rewrite digits_string_of_uint, uint_value_to_uint. by destruct (Pos.to_uint p).
Qed.

(** * Tokens of the service and the user table *)

Section Tokens.

Variable hmac_sha256 : string -> Header -> Payload -> string.

Lemma issued_token_authenticates n issued now :
  utcnow now < utcnow issued + 1800 ->
  authenticated hmac_sha256
    (create_access_token hmac_sha256 {["sub" := JString (str n)]} None issued) now n.
Proof.
  intros Hlive. unfold authenticated, get_current_user.
  rewrite decode_issued_default by (by left).
  apply Z.leb_gt in Hlive. rewrite Hlive. eexists. split; [done|].
  rewrite lookup_insert_ne by done. rewrite lookup_singleton_eq.
  cbn [int_of_claim]. by rewrite int_of_str_str.
Qed.

Lemma issued_token_expires s issued now :
  utcnow issued + 1800 <= utcnow now ->
  get_current_user hmac_sha256
    (create_access_token hmac_sha256 {["sub" := JString s]} None issued) now
    = Raise (HTTPException HTTP_401_UNAUTHORIZED "Invalid token").
Proof.
  intros Hdead. unfold get_current_user.
  rewrite decode_issued_default by (by left).
  apply Z.leb_le in Hdead. by rewrite Hdead.
Qed.


End Tokens.

Section Users.

Variable hmac_sha256 : string -> Header -> Payload -> string.
Variable bcrypt_hash : string -> string -> string.
Variable bcrypt_verify : string -> string -> bool.

Lemma add_user_taken email hashed t :
  email ∈ (User_email <$> users t) ->
  add_user_and_commit email hashed t = inl IntegrityError.
Proof. intros H. unfold add_user_and_commit. by rewrite bool_decide_eq_true_2. Qed.

Lemma add_user_free email hashed t :
  email ∉ (User_email <$> users t) ->
  add_user_and_commit email hashed t =
    inr (mkUser (next_user_id t) email hashed,
         mkUserTable (users t ++ [mkUser (next_user_id t) email hashed])
                     (next_user_id t + 1)).
Proof. intros H. unfold add_user_and_commit. by rewrite bool_decide_eq_false_2. Qed.

Lemma users_wf_add email hashed t :
  users_wf t ->
  email ∉ (User_email <$> users t) ->
  users_wf (mkUserTable (users t ++ [mkUser (next_user_id t) email hashed])
                        (next_user_id t + 1)).
Proof.
  intros (Hemails & Hids & Hbelow) Hfree. unfold users_wf. simpl.
  rewrite !fmap_app. simpl. split; [|split].
  - apply NoDup_app. split; [done|]. split; [|apply NoDup_singleton].
    intros x Hx ->%list_elem_of_singleton. done.
  - apply NoDup_app. split; [done|]. split; [|apply NoDup_singleton].
    intros x Hx ->%list_elem_of_singleton.
    apply list_elem_of_fmap in Hx as (u & Hu & Hin).
    rewrite Forall_forall in Hbelow. specialize (Hbelow u Hin). lia.
  - apply Forall_app. split; [|apply Forall_singleton; simpl; lia].
    eapply Forall_impl; [exact Hbelow|]. intros u Hu. simpl in *. lia.
Qed.

Lemma signup_cases user_data salt now t :
  let email := UserCreate_email user_data in
  let hashed := bcrypt_hash (UserCreate_password user_data) salt in
  ((email ∈ (User_email <$> users t)) /\
   signup hmac_sha256 bcrypt_hash user_data salt now t = (inl IntegrityError, t)) \/
  ((email ∉ (User_email <$> users t)) /\
   signup hmac_sha256 bcrypt_hash user_data salt now t =
     (inr {| signup_message := "User created successfully";
             signup_access_token :=
               create_access_token hmac_sha256
                 {["sub" := JString (str (next_user_id t))]} None now;
             signup_token_type := "bearer" |},
      mkUserTable (users t ++ [mkUser (next_user_id t) email hashed])
                  (next_user_id t + 1))).
Proof.
  intros email hashed. unfold signup, get_password_hash. fold email hashed.
  destruct (decide (email ∈ (User_email <$> users t))) as [Hin|Hout].
  - left. by rewrite add_user_taken.
  - right. by rewrite add_user_free.
Qed.

Lemma users_wf_signup user_data salt now t :
  users_wf t -> users_wf (snd (signup hmac_sha256 bcrypt_hash user_data salt now t)).
Proof.
  intros Hwf. destruct (signup_cases user_data salt now t) as [[_ ->] | [Hfree ->]];
    [done|]. by apply users_wf_add.
Qed.

Lemma users_wf_run_signups calls t :
  users_wf t -> users_wf (run_signups hmac_sha256 bcrypt_hash calls t).
Proof.
  revert t. induction calls as [|[[user salt] now] calls IH]; intros t Hwf; [done|].
  simpl. apply IH. by apply users_wf_signup.
Qed.

(** A registered user is the one a query by their email finds. *)
Lemma select_registered t u :
  users_wf t -> u ∈ users t -> select_user_by_email (User_email u) t = Some u.
Proof.
  intros (Hemails & _ & _) Hu. unfold select_user_by_email.
  induction (users t) as [|v l IH]; [by apply not_elem_of_nil in Hu|].
  rewrite fmap_cons in Hemails. apply NoDup_cons in Hemails as [Hv Hl].
  rewrite filter_cons. case_decide as Heq.
  - apply elem_of_cons in Hu as [->|Hu]; [done|].
    exfalso. apply Hv. rewrite Heq. by apply list_elem_of_fmap_2.
  - apply elem_of_cons in Hu as [->|Hu]; [done|]. by apply IH.
Qed.

Lemma select_unknown t username :
  username ∉ (User_email <$> users t) -> select_user_by_email username t = None.
Proof.
  intros Hout. unfold select_user_by_email. apply head_None.
  induction (users t) as [|v l IH]; [done|].
  rewrite fmap_cons in Hout. apply not_elem_of_cons in Hout as [Hv Hl].
  rewrite filter_cons_False by done. by apply IH.
Qed.

Lemma run_signups_grows calls t u :
  u ∈ users t -> u ∈ users (run_signups hmac_sha256 bcrypt_hash calls t).
Proof.
  revert t. induction calls as [|[[user salt] now] calls IH]; intros t Hu; [done|].
  simpl. apply IH. unfold signup_user.
  destruct (signup_cases user salt now t) as [[_ ->] | [_ ->]]; [done|].
  simpl. apply elem_of_app. by left.
Qed.

Lemma login_found form now t user :
  select_user_by_email (form_username form) t = Some user ->
  login hmac_sha256 bcrypt_verify form now t =
    if bcrypt_verify (form_password form) (User_hashed_password user)
    then Return {| access_token :=
                     create_access_token hmac_sha256
                       {["sub" := JString (str (User_id user))]} None now;
                   token_type := "bearer" |}
    else Raise (HTTPException HTTP_401_UNAUTHORIZED "Invalid credentials").
Proof.
  intros Hsel. unfold login, verify_password. rewrite Hsel.
  by destruct (bcrypt_verify _ _).
Qed.

(** X11: [signup] with an email that is already registered raises
    [IntegrityError] and leaves the table unchanged; with a new email it
    succeeds and appends exactly one row, with the next primary key and the
    hashed password; and whatever sign-ups follow, emails and primary keys
    stay pairwise distinct. *)
Theorem X11_signup_email_unique user_data salt now t :
  let email := UserCreate_email user_data in
  let out := signup hmac_sha256 bcrypt_hash user_data salt now t in
  ((email ∈ (User_email <$> users t)) -> out = (inl IntegrityError, t)) /\
  ((email ∉ (User_email <$> users t)) ->
     (exists response, fst out = inr response) /\
     users (snd out) =
       users t ++ [mkUser (next_user_id t) email
                     (bcrypt_hash (UserCreate_password user_data) salt)]) /\
  (users_wf t ->
     forall calls, users_wf (run_signups hmac_sha256 bcrypt_hash calls (snd out))).
Proof.
  intros email out.
  destruct (signup_cases user_data salt now t) as [[Hin Hout] | [Hfree Hout]];
    subst out; rewrite Hout; (split; [|split]).
  - done.
  - intros Hnot. exfalso. exact (Hnot Hin).
  - intros Hwf calls. by apply users_wf_run_signups.
  - intros Hyes. exfalso. exact (Hfree Hyes).
  - intros _. split; [by eexists | done].
  - intros Hwf calls. apply users_wf_run_signups. simpl. by apply users_wf_add.
Qed.

(** X12: the token a successful [signup] returns names the row just created:
    for 30 minutes the post routes read its subject as that row's primary
    key ([int(str(id))] is [id]); after that [get_current_user] refuses it. *)
Theorem X12_signup_token_authenticates user_data salt issued t response t' now :
  signup hmac_sha256 bcrypt_hash user_data salt issued t = (inr response, t') ->
  mkUser (next_user_id t) (UserCreate_email user_data)
    (bcrypt_hash (UserCreate_password user_data) salt) ∈ users t' /\
  (utcnow now < utcnow issued + ACCESS_TOKEN_EXPIRE_MINUTES * 60 ->
     authenticated hmac_sha256 (signup_access_token response) now (next_user_id t)) /\
  (utcnow issued + ACCESS_TOKEN_EXPIRE_MINUTES * 60 <= utcnow now ->
     get_current_user hmac_sha256 (signup_access_token response) now
       = Raise (HTTPException HTTP_401_UNAUTHORIZED "Invalid token")).
Proof.
  intros Hsignup.
  destruct (signup_cases user_data salt issued t) as [[_ Hout] | [_ Hout]];
    rewrite Hout in Hsignup; [done|].
  injection Hsignup as <- <-. simpl. split; [|split].
  - apply elem_of_app. right. left.
  - by apply issued_token_authenticates.
  - by apply issued_token_expires.
Qed.

(** X13: for a registered user (emails being distinct), [login] with their
    email succeeds exactly when the password verifies against their stored
    hash; the bearer token it returns is read by the post routes as that
    user's id for 30 minutes; a password that does not verify gets 401
    "Invalid credentials". *)
Theorem X13_login_registered_user t u password now :
  users_wf t ->
  u ∈ users t ->
  let form := {| form_username := User_email u; form_password := password |} in
  (bcrypt_verify password (User_hashed_password u) = true ->
     exists response,
       login hmac_sha256 bcrypt_verify form now t = Return response /\
       token_type response = "bearer" /\
       forall later, utcnow later < utcnow now + ACCESS_TOKEN_EXPIRE_MINUTES * 60 ->
         authenticated hmac_sha256 (access_token response) later (User_id u)) /\
  (bcrypt_verify password (User_hashed_password u) = false ->
     login hmac_sha256 bcrypt_verify form now t
       = Raise (HTTPException HTTP_401_UNAUTHORIZED "Invalid credentials")).
Proof.
  intros Hwf Hu form.
  pose proof (select_registered t u Hwf Hu) as Hsel.
  rewrite (login_found form now t u Hsel). simpl.
  split; intros ->; [|done].
  eexists. split; [done|]. split; [done|]. simpl.
  intros later Hlater. by apply issued_token_authenticates.
Qed.

(** X14: [login] answers an unknown email and a wrong password with the same
    401 "Invalid credentials". *)
Theorem X14_login_failure_uniform t form now :
  (form_username form ∉ (User_email <$> users t)) \/
  (exists u, select_user_by_email (form_username form) t = Some u /\
             bcrypt_verify (form_password form) (User_hashed_password u) = false) ->
  login hmac_sha256 bcrypt_verify form now t
    = Raise (HTTPException HTTP_401_UNAUTHORIZED "Invalid credentials").
Proof.
  intros [Hunknown | (u & Hsel & Hwrong)].
  - unfold login. by rewrite select_unknown.
  - by rewrite (login_found form now t u Hsel), Hwrong.
Qed.

(** X15: if verifying a password against its own hash succeeds, then after a
    successful [signup], and whatever sign-ups follow, [login] with the same
    email and password succeeds and its token is read as the id the sign-up
    assigned. *)
Theorem X15_signup_then_login user_data salt issued t response t' more now later :
  (forall password s, bcrypt_verify password (bcrypt_hash password s) = true) ->
  users_wf t ->
  signup hmac_sha256 bcrypt_hash user_data salt issued t = (inr response, t') ->
  utcnow later < utcnow now + ACCESS_TOKEN_EXPIRE_MINUTES * 60 ->
  let form := {| form_username := UserCreate_email user_data;
                 form_password := UserCreate_password user_data |} in
  exists answer,
    login hmac_sha256 bcrypt_verify form now
      (run_signups hmac_sha256 bcrypt_hash more t') = Return answer /\
    authenticated hmac_sha256 (access_token answer) later (next_user_id t).
Proof.
  intros Hbcrypt Hwf Hsignup Hlater form.
  set (u := mkUser (next_user_id t) (UserCreate_email user_data)
              (bcrypt_hash (UserCreate_password user_data) salt)).
  assert (u ∈ users t' /\ users_wf t') as [Hrow Hwf'].
  { destruct (signup_cases user_data salt issued t) as [[_ Hout] | [Hfree Hout]];
      rewrite Hout in Hsignup; [done|]. injection Hsignup as _ <-. split.
    - apply elem_of_app. right. left.
    - by apply users_wf_add. }
  assert (select_user_by_email (form_username form)
            (run_signups hmac_sha256 bcrypt_hash more t') = Some u) as Hsel.
  { apply (select_registered _ u);
      [by apply users_wf_run_signups | by apply run_signups_grows]. }
  rewrite (login_found form now _ u Hsel). cbn [form form_password User_hashed_password u].
  rewrite Hbcrypt. eexists. split; [done|].
  by apply issued_token_authenticates.
Qed.

End Users.

(** * Lists: filters under a map *)

Section ListFacts.

Context {A B : Type}.

Lemma NoDup_fmap_filter (f : A -> B) (P : A -> Prop) `{!forall x, Decision (P x)}
    (l : list A) :
  NoDup (f <$> l) -> NoDup (f <$> filter P l).
Proof.
  induction l as [|x l IH]; [done|].
  rewrite fmap_cons, NoDup_cons. intros [Hx Hl].
  rewrite filter_cons. case_decide; [|by apply IH].
  rewrite fmap_cons. apply NoDup_cons. split; [|by apply IH].
  intros Hin. apply Hx. apply list_elem_of_fmap in Hin as (y & -> & Hy).
  apply list_elem_of_filter in Hy as [_ Hy]. by apply list_elem_of_fmap_2.
Qed.

Lemma fmap_filter (f : A -> B) (P : A -> Prop) (Q : B -> Prop)
    `{!forall x, Decision (P x)} `{!forall y, Decision (Q y)} (l : list A) :
  (forall x, P x <-> Q (f x)) ->
  f <$> filter P l = filter Q (f <$> l).
Proof.
  intros HPQ. induction l as [|x l IH]; [done|].
  rewrite fmap_cons, !filter_cons.
  destruct (decide (P x)) as [HP|HP], (decide (Q (f x))) as [HQ|HQ];
    rewrite ?fmap_cons, ?IH; try done; exfalso; by apply HPQ in HP || apply HPQ in HQ.
Qed.

Lemma NoDup_fmap_eq (f : A -> B) (l : list A) x y :
  NoDup (f <$> l) -> x ∈ l -> y ∈ l -> f x = f y -> x = y.
Proof.
  induction l as [|z l IH]; [by intros _ ?%not_elem_of_nil|].
  rewrite fmap_cons, NoDup_cons. intros [Hz Hl].
  intros [->|Hx]%elem_of_cons [->|Hy]%elem_of_cons Heq; [done| | |by apply IH].
  - exfalso. apply Hz. rewrite Heq. by apply list_elem_of_fmap_2.
  - exfalso. apply Hz. rewrite <-Heq. by apply list_elem_of_fmap_2.
Qed.

Lemma filter_filter_swap (P Q : A -> Prop) `{!forall x, Decision (P x)}
    `{!forall x, Decision (Q x)} (l : list A) :
  filter P (filter Q l) = filter Q (filter P l).
Proof.
  induction l as [|x l IH]; [done|].
  rewrite !filter_cons. repeat case_decide; rewrite ?filter_cons;
    repeat case_decide; try done; by rewrite IH.
Qed.

Lemma filter_filter_implied (P Q : A -> Prop) `{!forall x, Decision (P x)}
    `{!forall x, Decision (Q x)} (l : list A) :
  (forall x, x ∈ l -> P x -> Q x) ->
  filter P (filter Q l) = filter P l.
Proof.
  induction l as [|x l IH]; [done|]. intros Himp.
  assert (filter P (filter Q l) = filter P l) as IH'.
  { apply IH. intros y Hy. apply Himp. by right. }
  rewrite (filter_cons Q). case_decide as HQ.
  - rewrite !filter_cons. by rewrite IH'.
  - rewrite IH', filter_cons_False; [done|]. intros HP. apply HQ, Himp; [left|done].
Qed.

End ListFacts.

(** * The store's primary keys *)

Lemma db_wf_executed q d : db_wf d -> db_wf (executed q d).
Proof. done. Qed.

Lemma db_wf_add text owner_id d : db_wf d -> db_wf (snd (add_and_commit text owner_id d)).
Proof.
  intros [Hids Hbelow]. unfold db_wf. simpl. rewrite fmap_app. simpl. split.
  - apply NoDup_app. split; [done|]. split; [|apply NoDup_singleton].
    intros i Hi ->%list_elem_of_singleton.
    apply list_elem_of_fmap in Hi as (p & Hp & Hin).
    rewrite Forall_forall in Hbelow. specialize (Hbelow p Hin). lia.
  - apply Forall_app. split; [|apply Forall_singleton; simpl; lia].
    eapply Forall_impl; [exact Hbelow|]. intros p Hp. simpl in *. lia.
Qed.

Lemma db_wf_delete post d : db_wf d -> db_wf (delete_and_commit post d).
Proof.
  intros [Hids Hbelow]. unfold db_wf. simpl. split.
  - by apply NoDup_fmap_filter.
  - rewrite Forall_forall in *. intros p Hp.
    apply list_elem_of_filter in Hp as [_ Hp]. by apply Hbelow.
Qed.

(** With distinct keys, the row a delete removes is the only one of its id. *)
Lemma db_wf_same_id d p q :
  db_wf d -> p ∈ posts d -> q ∈ posts d -> Post_id p = Post_id q -> p = q.
Proof. intros [Hids _]. by apply NoDup_fmap_eq. Qed.

(** * The cache's keys and size *)

Module CacheShape.
Import TTLCache.

Lemma move_to_end_Permutation k c : move_to_end k c ≡ₚ c.
Proof.
  unfold move_to_end, remove.
  rewrite (comm (++)). apply (filter_app_complement (fun e => key e = k)).
Qed.

Lemma cache_wf_move_to_end k c : cache_wf c -> cache_wf (move_to_end k c).
Proof. unfold cache_wf. by rewrite move_to_end_Permutation. Qed.

Lemma cache_wf_get k time c : cache_wf c -> cache_wf (snd (get k time c)).
Proof.
  intros H. unfold get. destruct (contains k time c); [|done].
  by apply cache_wf_move_to_end.
Qed.

Lemma cache_wf_append k x c : cache_wf c -> cache_wf (append k x c).
Proof.
  unfold cache_wf, append. rewrite length_fmap, <-list_fmap_compose.
  assert (key ∘ grow k x <$> c = key <$> c) as ->; [|done].
  apply list_fmap_ext. intros i e _. simpl. apply TTLCacheFacts.key_grow.
Qed.

Lemma make_room_sublist c : make_room c `sublist_of` c.
Proof.
  induction c as [|e c IH]; [done|]. simpl.
  destruct (maxsize <? _); [by apply sublist_cons_r; left | done].
Qed.

Lemma make_room_length c : Z.of_nat (length (make_room c)) + 1 <= maxsize.
Proof.
  induction c as [|e c IH]; [done|]. cbn [make_room].
  destruct (maxsize <? Z.of_nat (length (e :: c)) + 1) eqn:Hfull; [exact IH|].
  by apply Z.ltb_ge in Hfull.
Qed.

Lemma NoDup_keys_make_room c : NoDup (key <$> c) -> NoDup (key <$> make_room c).
Proof.
  intros H. eapply sublist_NoDup; [exact H|].
  apply fmap_sublist, make_room_sublist.
Qed.

Lemma cache_wf_setitem k v time c : cache_wf c -> cache_wf (setitem k v time c).
Proof.
  intros [Hkeys Hsize]. unfold setitem.
  set (c1 := expire time c).
  assert (NoDup (key <$> c1)) as Hkeys1 by (by apply NoDup_fmap_filter).
  assert (length c1 <= length c)%nat as Hsize1 by apply length_filter.
  set (c2 := match find k c1 with Some _ => c1 | None => make_room c1 end).
  assert (NoDup (key <$> c2)) as Hkeys2.
  { subst c2. destruct (find k c1); [done | by apply NoDup_keys_make_room]. }
  assert (Z.of_nat (length (remove k c2)) + 1 <= maxsize) as Hsize2.
  { subst c2. destruct (find k c1) as [e|] eqn:Hfind.
    - apply TTLCacheFacts.find_Some in Hfind as [Hk He].
      assert (length (remove k c1) < length c1)%nat; [|lia].
      apply (length_filter_lt _ _ e); [done|]. by intros ?.
    - pose proof (make_room_length c1).
      pose proof (length_filter (fun e => key e <> k) (make_room c1)).
      unfold remove. lia. }
  split.
  - rewrite fmap_app. apply NoDup_app. split; [by apply NoDup_fmap_filter|].
    split; [|apply NoDup_singleton].
    intros i Hi ->%list_elem_of_singleton.
    apply list_elem_of_fmap in Hi as (e & He & Hin).
    apply list_elem_of_filter in Hin as [Hne _]. done.
  - rewrite length_app. simpl. lia.
Qed.

End CacheShape.

(** * The invariants, call by call *)

Section Steps.

Variable hmac_sha256 : string -> Header -> Payload -> string.

Lemma db_wf_serve now call w :
  db_wf (db w) -> db_wf (db (snd (serve hmac_sha256 now call w))).
Proof.
  intros Hwf.
  destruct (serve_cases hmac_sha256 now call w) as [-> | [user_id Hcase]]; [done|].
  destruct call as [post request token | token | post_id token];
    destruct Hcase as [_ ->].
  - destruct (Z.lt_ge_cases 1000000 (body_size request)) as [Hbig|Hok].
    + by rewrite add_post_too_large.
    + rewrite add_post_accepted by lia. by apply db_wf_add.
  - destruct (truthy (fst (TTLCache.get user_id (monotonic now) (cache w)))) eqn:Hhit.
    + destruct (fst (TTLCache.get user_id (monotonic now) (cache w)))
        as [[|x l]|] eqn:Hget; try done.
      by rewrite (list_posts_hit _ _ _ _ Hget).
    + rewrite list_posts_miss by done. cbv zeta. by destruct (filter _ _).
  - destruct (head (filter (fun p => Post_id p = post_id /\ Post_owner_id p = user_id)
                      (posts (db w)))) as [post|] eqn:Hpost.
    + rewrite (delete_post_done _ _ _ _ post) by done. by apply db_wf_delete.
    + rewrite delete_post_refused; [done|].
      intros p Hp Hid Hown. apply head_None in Hpost.
      eapply filter_nil_not_elem_of; [exact Hpost | | exact Hp]. done.
Qed.

Lemma cache_wf_serve now call w :
  cache_wf (cache w) -> cache_wf (cache (snd (serve hmac_sha256 now call w))).
Proof.
  intros Hwf.
  destruct (serve_cases hmac_sha256 now call w) as [-> | [user_id Hcase]]; [done|].
  destruct call as [post request token | token | post_id token];
    destruct Hcase as [_ ->].
  - destruct (add_post_cache post user_id request now w)
      as [-> | [-> | (x & l & _ & _ & _ & ->)]];
      [done | by apply CacheShape.cache_wf_get |].
    by apply CacheShape.cache_wf_append, CacheShape.cache_wf_get.
  - destruct (list_posts_cache user_id now w) as [-> | (p & rows & _ & ->)];
      [by apply CacheShape.cache_wf_get|].
    by apply CacheShape.cache_wf_setitem, CacheShape.cache_wf_get.
  - destruct (delete_post_cache post_id user_id now w)
      as [-> | [-> | (l & _ & ->)]]; [done | by apply CacheShape.cache_wf_get |].
    by apply CacheShape.cache_wf_setitem, CacheShape.cache_wf_get.
Qed.

End Steps.

(** * Coherence of the cache with the store *)

Module Coherence.
Import TTLCache.

Lemma find_member k c e : NoDup (key <$> c) -> e ∈ c -> key e = k -> find k c = Some e.
Proof.
  intros Hkeys He Hk. destruct (find k c) as [e'|] eqn:Hfind.
  - apply TTLCacheFacts.find_Some in Hfind as [Hk' He'].
    f_equal. eapply NoDup_fmap_eq; [exact Hkeys|done|done|congruence].
  - exfalso. eapply TTLCacheFacts.find_None in Hfind; [|exact He]. done.
Qed.

Lemma truthy_get_true k time c :
  truthy (fst (get k time c)) = true ->
  exists e, find k c = Some e /\ time < expires e /\ value e <> [] /\
            fst (get k time c) = Some (value e).
Proof.
  destruct (fst (get k time c)) as [[|x l]|] eqn:Hget; try done. intros _.
  apply TTLCacheFacts.get_Some in Hget as (e & Hfind & Hlive & Hval).
  exists e. rewrite Hval. by repeat split.
Qed.

Lemma truthy_get_false k time c e :
  truthy (fst (get k time c)) = false ->
  find k c = Some e -> time < expires e -> value e = [].
Proof.
  intros Hfalse Hfind Hlive.
  assert (fst (get k time c) = Some (value e)) as Hget
    by (apply TTLCacheFacts.get_Some; eauto).
  rewrite Hget in Hfalse. by destruct (value e).
Qed.

(** After [get], every entry is still the one found under its key. *)
Lemma member_after_get k time c e :
  cache_wf c -> e ∈ snd (get k time c) -> find (key e) c = Some e.
Proof.
  intros Hwf He. rewrite <-(TTLCacheFacts.find_get k (key e) time c).
  apply find_member; [|done|done].
  by apply (CacheShape.cache_wf_get k time c).
Qed.

Lemma entry_coherent_later time time' d e :
  time <= time' -> entry_coherent time d e -> entry_coherent time' d e.
Proof. unfold entry_coherent. intros Hle H Hlive. apply H. lia. Qed.

Lemma Forall_setitem_others (P : entry -> Prop) k v time c :
  P (mkEntry k v (time + ttl)) ->
  (forall e, e ∈ c -> key e <> k -> P e) ->
  Forall P (setitem k v time c).
Proof.
  intros Hnew Hothers. unfold setitem.
  apply Forall_app_2; [|by apply Forall_singleton].
  apply Forall_forall. intros e He.
  apply list_elem_of_filter in He as [Hne He]. apply Hothers; [|done].
  destruct (find k (expire time c)).
  - by apply list_elem_of_filter in He as [_ He].
  - eapply elem_of_sublist in He; [|apply CacheShape.make_room_sublist].
    by apply list_elem_of_filter in He as [_ He].
Qed.

End Coherence.

Section CoherenceSteps.
Import TTLCache.

Variable hmac_sha256 : string -> Header -> Payload -> string.

Lemma coherent_later time time' w :
  time <= time' -> coherent time w -> coherent time' w.
Proof.
  intros Hle Hco. unfold coherent in *. eapply Forall_impl; [exact Hco|].
  intros e. by apply (Coherence.entry_coherent_later time time' (db w) e).
Qed.

Lemma owner_rows_add k text user_id d :
  filter (fun p => Post_owner_id p = k) (posts (snd (add_and_commit text user_id d))) =
  filter (fun p => Post_owner_id p = k) (posts d) ++
    (if decide (user_id = k) then [mkPost (next_id d) text user_id] else []).
Proof.
  simpl. rewrite filter_app, filter_cons, filter_nil. simpl. done.
Qed.

Lemma owner_rows_delete k post d :
  db_wf d -> post ∈ posts d -> Post_owner_id post <> k ->
  filter (fun p => Post_owner_id p = k) (posts (delete_and_commit post d)) =
  filter (fun p => Post_owner_id p = k) (posts d).
Proof.
  intros Hwf Hpost Hown. simpl. apply filter_filter_implied.
  intros p Hp Hk Hid. apply Hown. rewrite <-Hk. f_equal. symmetry.
  by eapply db_wf_same_id.
Qed.

Lemma add_post_coherent post user_id request now w :
  cache_wf (cache w) ->
  coherent (monotonic now) w ->
  coherent (monotonic now) (snd (add_post_to_db_and_cache post user_id request now w)).
Proof.
  intros Hwf Hco.
  destruct (Z.lt_ge_cases 1000000 (body_size request)) as [Hbig|Hok];
    [by rewrite add_post_too_large|].
  rewrite add_post_accepted by lia. cbv zeta. cbn [snd].
  set (new_post := mkPost (next_id (db w)) (PostCreate_text post) user_id).
  set (hit := get user_id (monotonic now) (cache w)).
  unfold coherent in *. cbn [db cache].
  assert (forall e, e ∈ snd hit -> key e <> user_id ->
            entry_coherent (monotonic now)
              (snd (add_and_commit (PostCreate_text post) user_id (db w))) e) as Hothers.
  { intros e He Hne. pose proof (Forall_get _ user_id (monotonic now) _ Hco) as Hco'.
    rewrite Forall_forall in Hco'. specialize (Hco' e He).
    unfold entry_coherent. rewrite owner_rows_add.
    rewrite decide_False by congruence. by rewrite app_nil_r. }
  destruct (truthy (fst hit)) eqn:Htruthy.
  - apply Coherence.truthy_get_true in Htruthy as (e0 & Hfind & Hlive & Hne & Hget).
    unfold append. apply Forall_fmap, Forall_forall. intros e He.
    unfold compose, grow. case_decide as Hk; [|by apply Hothers].
    pose proof (Coherence.member_after_get _ _ _ _ Hwf He) as Hmem.
    rewrite Hk, Hfind in Hmem. injection Hmem as <-.
    rewrite Forall_forall in Hco.
    apply TTLCacheFacts.find_Some in Hfind as [_ Hin].
    specialize (Hco e0 Hin Hlive Hne).
    intros _ _. cbn [value key]. rewrite fmap_app, Hco, owner_rows_add, Hk.
    rewrite decide_True by done. by rewrite fmap_app.
  - apply Forall_forall. intros e He.
    destruct (decide (key e = user_id)) as [Hk|Hk]; [|by apply Hothers].
    pose proof (Coherence.member_after_get _ _ _ _ Hwf He) as Hmem.
    rewrite Hk in Hmem. intros Hlive Hne. exfalso. apply Hne.
    by eapply Coherence.truthy_get_false.
Qed.

Lemma list_posts_coherent user_id now w :
  coherent (monotonic now) w ->
  coherent (monotonic now) (snd (get_user_posts_from_cache_or_db user_id now w)).
Proof.
  intros Hco. unfold coherent in *.
  destruct (truthy (fst (get user_id (monotonic now) (cache w)))) eqn:Hhit.
  - destruct (fst (get user_id (monotonic now) (cache w)))
      as [[|x l]|] eqn:Hget; try done.
    rewrite (list_posts_hit _ _ _ _ Hget) by done. cbn [snd db cache].
    by apply Forall_move_to_end.
  - rewrite list_posts_miss by done. cbv zeta.
    destruct (filter _ _) as [|p rows] eqn:Hrows; cbn [snd db cache].
    + by apply Forall_get.
    + apply Forall_setitem; [|by apply Forall_get].
      intros _ _. cbn [value key posts executed]. rewrite Hrows.
      by rewrite <-list_fmap_compose.
Qed.

Lemma delete_post_coherent post_id user_id now w :
  db_wf (db w) ->
  cache_wf (cache w) ->
  coherent (monotonic now) w ->
  coherent (monotonic now) (snd (delete_post_from_db_and_cache post_id user_id now w)).
Proof.
  intros Hdb Hwf Hco.
  destruct (head (filter (fun p => Post_id p = post_id /\ Post_owner_id p = user_id)
                    (posts (db w)))) as [post|] eqn:Hpost.
  2:{ rewrite delete_post_refused; [done|].
      intros p Hp Hid Hown. apply head_None in Hpost.
      eapply filter_nil_not_elem_of; [exact Hpost | | exact Hp]. done. }
  rewrite (delete_post_done _ _ _ _ post) by done. cbv zeta. cbn [snd].
  apply head_Some_elem_of, list_elem_of_filter in Hpost as [[Hid Hown] Hin].
  set (hit := get user_id (monotonic now) (cache w)).
  set (d' := delete_and_commit post (executed (SelectByIdAndOwner post_id user_id) (db w))).
  unfold coherent in *. cbn [db cache].
  assert (forall e, e ∈ snd hit -> key e <> user_id ->
            entry_coherent (monotonic now) d' e) as Hothers.
  { intros e He Hne. pose proof (Forall_get _ user_id (monotonic now) _ Hco) as Hco'.
    rewrite Forall_forall in Hco'. specialize (Hco' e He).
    unfold entry_coherent. subst d'.
    rewrite (owner_rows_delete (key e) post); [done | done | done | congruence]. }
  destruct (truthy (fst hit)) eqn:Htruthy.
  - apply Coherence.truthy_get_true in Htruthy as (e0 & Hfind & Hlive & Hne & Hget).
    fold hit in Hget. rewrite Hget. cbn [default].
    apply Coherence.Forall_setitem_others; [|exact Hothers].
    rewrite Forall_forall in Hco.
    pose proof Hfind as Hfind'.
    apply TTLCacheFacts.find_Some in Hfind' as [Hk Hin0].
    specialize (Hco e0 Hin0 Hlive Hne). rewrite Hk in Hco.
    intros _ _. cbn [value key]. subst d'. cbn [posts delete_and_commit executed].
    rewrite Hid.
    assert (forall l : list CachedPost,
              from_orm_cached <$> filter (fun p => cached_id p <> post_id) l =
              filter (fun r => PostResponse_id r <> post_id) (from_orm_cached <$> l))
      as Hcached by (intros l; by apply fmap_filter).
    assert (forall l : list Post,
              from_orm <$> filter (fun p => Post_id p <> post_id) l =
              filter (fun r => PostResponse_id r <> post_id) (from_orm <$> l))
      as Hrows by (intros l; by apply fmap_filter).
    rewrite Hcached. unfold id. rewrite Hco, <-Hrows. f_equal. apply filter_filter_swap.
  - apply Forall_forall. intros e He.
    destruct (decide (key e = user_id)) as [Hk|Hk]; [|by apply Hothers].
    pose proof (Coherence.member_after_get _ _ _ _ Hwf He) as Hmem.
    rewrite Hk in Hmem. intros Hlive Hne. exfalso. apply Hne.
    by eapply Coherence.truthy_get_false.
Qed.

Lemma coherent_serve now call w :
  db_wf (db w) ->
  cache_wf (cache w) ->
  coherent (monotonic now) w ->
  coherent (monotonic now) (snd (serve hmac_sha256 now call w)).
Proof.
  intros Hdb Hwf Hco.
  destruct (serve_cases hmac_sha256 now call w) as [-> | [user_id Hcase]]; [done|].
  destruct call as [post request token | token | post_id token];
    destruct Hcase as [_ ->].
  - by apply add_post_coherent.
  - by apply list_posts_coherent.
  - by apply delete_post_coherent.
Qed.

End CoherenceSteps.

(** * Sound states *)

Section Soundness.

Variable hmac_sha256 : string -> Header -> Payload -> string.

Lemma sound_startup time d : db_wf d -> sound time (startup d).
Proof.
  intros Hd. split; [done|]. split; [|by constructor].
  split; [constructor | done].
Qed.

Lemma sound_serve time now call w :
  time <= monotonic now ->
  sound time w ->
  sound (monotonic now) (snd (serve hmac_sha256 now call w)).
Proof.
  intros Hle (Hdb & Hwf & Hco). split; [|split].
  - by apply db_wf_serve.
  - by apply cache_wf_serve.
  - apply coherent_serve; [done | done |]. by eapply coherent_later.
Qed.

Lemma sound_run time calls w :
  timely time calls ->
  sound time w ->
  sound (clock_after time calls) (run hmac_sha256 calls w).
Proof.
  revert time w. induction calls as [|[now call] calls IH]; intros time w; [done|].
  simpl. intros [Hle Hrest] Hsound. apply IH; [done|]. by apply sound_serve with time.
Qed.

(** What [listPosts] answers in a sound state: the stored posts of the
    caller, or 404 when there is none. *)
Lemma list_posts_sound user_id now w :
  coherent (monotonic now) w ->
  fst (get_user_posts_from_cache_or_db user_id now w) =
    match filter (fun p => Post_owner_id p = user_id) (posts (db w)) with
    | [] => Raise (HTTPException HTTP_404_NOT_FOUND "No posts found")
    | rows => Return (from_orm <$> rows)
    end.
Proof.
  intros Hco.
  destruct (truthy (fst (TTLCache.get user_id (monotonic now) (cache w)))) eqn:Hhit.
  - apply Coherence.truthy_get_true in Hhit as (e & Hfind & Hlive & Hne & Hget).
    rewrite (list_posts_hit _ _ _ _ Hget Hne). cbn [fst].
    apply TTLCacheFacts.find_Some in Hfind as [Hk Hin].
    unfold coherent in Hco. rewrite Forall_forall in Hco.
    specialize (Hco e Hin Hlive Hne). rewrite Hk in Hco. rewrite Hco.
    destruct (filter _ _) as [|p rows] eqn:Hrows; [|done].
    exfalso. apply Hne. by apply fmap_nil_inv in Hco.
  - rewrite list_posts_miss by done. cbv zeta. by destruct (filter _ _).
Qed.

Lemma list_posts_rows user_id now w :
  posts (db (snd (get_user_posts_from_cache_or_db user_id now w))) = posts (db w).
Proof.
  destruct (truthy (fst (TTLCache.get user_id (monotonic now) (cache w)))) eqn:Hhit.
  - destruct (fst (TTLCache.get user_id (monotonic now) (cache w)))
      as [[|x l]|] eqn:Hget; try done.
    by rewrite (list_posts_hit _ _ _ _ Hget).
  - rewrite list_posts_miss by done. cbv zeta. by destruct (filter _ _).
Qed.

Lemma get_posts_sound token now user_id w :
  authenticated hmac_sha256 token now user_id ->
  coherent (monotonic now) w ->
  fst (get_posts hmac_sha256 token now w) =
    match filter (fun p => Post_owner_id p = user_id) (posts (db w)) with
    | [] => Raise (HTTPException HTTP_404_NOT_FOUND "No posts found")
    | rows => Return (Posts (from_orm <$> rows))
    end.
Proof.
  intros Hauth Hco. rewrite (get_posts_route _ _ _ _ _ Hauth).
  pose proof (list_posts_sound user_id now w Hco) as Hlist.
  destruct (get_user_posts_from_cache_or_db user_id now w) as [[l|e] w'];
    cbn [fst] in *; destruct (filter _ _); congruence.
Qed.

End Soundness.

(** * Further properties of the post routes *)

Section More.

Variable hmac_sha256 : string -> Header -> Payload -> string.

(** X1: when the verification of the token fails (its structure is
    malformed, its signature does not check, or its expiry has passed), each
    of the three post routes answers with the 401 "Invalid token" of
    [get_current_user] and leaves the store (statement log included) and the
    cache exactly as they were. *)
Theorem X1_unauthenticated_call_changes_nothing token now w :
  verification_fails hmac_sha256 token now ->
  let e := HTTPException HTTP_401_UNAUTHORIZED "Invalid token" in
  (forall post request, add_post hmac_sha256 post request token now w = (Raise e, w)) /\
  get_posts hmac_sha256 token now w = (Raise e, w) /\
  (forall post_id, delete_post hmac_sha256 post_id token now w = (Raise e, w)).
Proof.
  intros Hfail e.
  destruct (verification_fails_decode _ _ _ Hfail) as [err Herr].
  assert (get_current_user hmac_sha256 token now = Raise e) as Hrefused
    by (by eapply decode_error_uniform).
  assert (current_user_id hmac_sha256 token now w = (Raise e, w)) as Hid
    by (unfold current_user_id, bind, lift; by rewrite Hrefused).
  split; [|split]; intros; unfold add_post, get_posts, delete_post, bind;
    by rewrite Hid.
Qed.

(** X2: in every state reached from a well-formed store (primary keys
    distinct and below the next one), an accepted [addPost] returns an id that
    no stored post has, appends exactly
    that post (the caller's text, the caller as owner) to the store, and the
    primary keys stay distinct. *)
Theorem X2_add_post_assigns_fresh_id calls d post request token now user_id :
  db_wf d ->
  authenticated hmac_sha256 token now user_id ->
  body_size request <= 1000000 ->
  let w := run hmac_sha256 calls (startup d) in
  let out := add_post hmac_sha256 post request token now w in
  let new_post := mkPost (next_id (db w)) (PostCreate_text post) user_id in
  fst out = Return (PostID (Post_id new_post)) /\
  posts (db (snd out)) = posts (db w) ++ [new_post] /\
  (forall p, p ∈ posts (db w) -> Post_id p <> Post_id new_post) /\
  db_wf (db (snd out)).
Proof.
  intros Hd Hauth Hsize w out new_post.
  assert (db_wf (db w)) as Hw.
  { subst w. clear out new_post. generalize (startup d), (Hd : db_wf (db (startup d))).
    induction calls as [|[t c] calls IH]; intros w0 Hw0; [done|].
    simpl. apply IH. by apply db_wf_serve. }
  subst out. rewrite (add_post_route _ _ _ _ _ _ _ Hauth).
  rewrite add_post_accepted by done. cbv zeta. cbn [fst snd db].
  split; [done|]. split; [done|]. split; [|by apply db_wf_add].
  intros p Hp. destruct Hw as [_ Hbelow]. rewrite Forall_forall in Hbelow.
  specialize (Hbelow p Hp). simpl. lia.
Qed.

(** X3: [deletePost] of a post the caller owns succeeds; afterwards the store
    holds exactly the posts whose id is another one, and, with distinct
    primary keys, every other post is still there. *)
Theorem X3_delete_own_post post_id token now user_id w post :
  authenticated hmac_sha256 token now user_id ->
  post ∈ posts (db w) ->
  Post_id post = post_id ->
  Post_owner_id post = user_id ->
  let out := delete_post hmac_sha256 post_id token now w in
  fst out = Return (DeletePostResponse true "Post deleted successfully") /\
  (forall p, p ∈ posts (db (snd out)) <-> p ∈ posts (db w) /\ Post_id p <> post_id) /\
  (db_wf (db w) -> forall p, p ∈ posts (db w) -> p <> post -> p ∈ posts (db (snd out))).
Proof.
  intros Hauth Hpost Hid Hown out.
  destruct (owned_post_found post_id user_id w post Hpost Hid Hown)
    as (found & Hfound & Hfid).
  subst out. rewrite (delete_post_route _ _ _ _ _ _ Hauth).
  rewrite (delete_post_done _ _ _ _ found Hfound). cbv zeta. cbn [fst snd db].
  assert (forall p, p ∈ posts (delete_and_commit found
                          (executed (SelectByIdAndOwner post_id user_id) (db w))) <->
                    p ∈ posts (db w) /\ Post_id p <> post_id) as Hrows.
  { intros p. cbn [posts delete_and_commit executed].
    rewrite list_elem_of_filter, Hfid. tauto. }
  split; [done|]. split; [exact Hrows|].
  intros Hwf p Hp Hne. apply Hrows. split; [done|].
  intros Hpid. apply Hne. eapply db_wf_same_id; [done..|congruence].
Qed.

(** X4: the cache is transparent where it agrees with the store. In every
    state in which each live, non-empty cache entry lists exactly the stored
    posts of its owner, in the order of the store ([coherent]), a [listPosts]
    served with no other request at work answers with exactly the caller's
    stored posts, in the order of the store, and with 404 exactly when the
    caller has none; whether the answer comes from the cache or from the
    store. The service is in such a state after any number of requests served
    one at a time ([sound_run]). Nothing is said of requests that overlap:
    their handlers are suspended between reading the store and writing the
    cache, and the agreement is then an assumption. *)
Theorem X4_list_posts_shows_the_store token now user_id w :
  coherent (monotonic now) w ->
  authenticated hmac_sha256 token now user_id ->
  fst (get_posts hmac_sha256 token now w) =
    match filter (fun p => Post_owner_id p = user_id) (posts (db w)) with
    | [] => Raise (HTTPException HTTP_404_NOT_FOUND "No posts found")
    | rows => Return (Posts (from_orm <$> rows))
    end.
Proof.
  intros Hco Hauth. by apply get_posts_sound.
Qed.

(** X5: in every state with well-formed store and cache that agree ([sound]),
    whatever the cache holds for the caller (a live list, an empty one, an
    expired one or nothing), an accepted [addPost] served to its end and
    followed at once by [listPosts], no other request at work in between,
    returns the caller's earlier posts followed by the new one. *)
Theorem X5_add_then_list_shows_all time post request token now user_id w :
  sound time w ->
  time <= monotonic now ->
  authenticated hmac_sha256 token now user_id ->
  body_size request <= 1000000 ->
  let added := add_post hmac_sha256 post request token now w in
  fst (get_posts hmac_sha256 token now (snd added)) =
    Return (Posts (from_orm <$>
                     filter (fun p => Post_owner_id p = user_id) (posts (db w)) ++
                     [mkPost (next_id (db w)) (PostCreate_text post) user_id])).
Proof.
  intros Hsound Hnow Hauth Hsize added.
  assert (sound (monotonic now) (snd added)) as (_ & _ & Hco)
    by (by apply (sound_serve hmac_sha256 _ now (AddPost post request token) w Hnow)).
  rewrite (get_posts_sound _ _ _ _ _ Hauth Hco).
  assert (posts (db (snd added)) =
          posts (db w) ++ [mkPost (next_id (db w)) (PostCreate_text post) user_id])
    as ->.
  { subst added. rewrite (add_post_route _ _ _ _ _ _ _ Hauth).
    by rewrite add_post_accepted. }
  rewrite filter_app, filter_cons_True, filter_nil by done.
  by destruct (filter _ (posts (db w))).
Qed.

(** X6: in every such state, a [deletePost] of an own post served to its end
    and followed at once by [listPosts], no other request at work in between,
    returns the caller's other posts, and 404 when that was the last one; the
    deleted post is not listed. *)
Theorem X6_delete_then_list_omits_post time post_id token now user_id w :
  sound time w ->
  time <= monotonic now ->
  authenticated hmac_sha256 token now user_id ->
  (exists post, post ∈ posts (db w) /\ Post_id post = post_id /\
                Post_owner_id post = user_id) ->
  let deleted := delete_post hmac_sha256 post_id token now w in
  fst deleted = Return (DeletePostResponse true "Post deleted successfully") /\
  fst (get_posts hmac_sha256 token now (snd deleted)) =
    match filter (fun p => Post_owner_id p = user_id /\ Post_id p <> post_id)
            (posts (db w)) with
    | [] => Raise (HTTPException HTTP_404_NOT_FOUND "No posts found")
    | rows => Return (Posts (from_orm <$> rows))
    end.
Proof.
  intros Hsound Hnow Hauth (post & Hpost & Hid & Hown) deleted.
  assert (sound (monotonic now) (snd deleted)) as (_ & _ & Hco)
    by (by apply (sound_serve hmac_sha256 _ now (DeletePost post_id token) w Hnow)).
  destruct (owned_post_found post_id user_id w post Hpost Hid Hown)
    as (found & Hfound & Hfid).
  assert (fst deleted = Return (DeletePostResponse true "Post deleted successfully") /\
          posts (db (snd deleted)) =
            filter (fun p => Post_id p <> post_id) (posts (db w))) as [Hout Hrows].
  { subst deleted. rewrite (delete_post_route _ _ _ _ _ _ Hauth).
    rewrite (delete_post_done _ _ _ _ found Hfound). cbv zeta.
    cbn [fst snd db posts delete_and_commit executed]. by rewrite Hfid. }
  split; [exact Hout|].
  rewrite (get_posts_sound _ _ _ _ _ Hauth Hco), Hrows.
  rewrite list_filter_filter. done.
Qed.

(** X7: an entry written by [listPosts] is no longer served once 300 seconds
    have passed on the cache's timer: a [listPosts] at or after that moment
    queries the store again, and returns the same posts. *)
Theorem X7_cache_entry_expires token now token' later user_id w :
  authenticated hmac_sha256 token now user_id ->
  authenticated hmac_sha256 token' later user_id ->
  TTLCache.contains user_id (monotonic now) (cache w) = false ->
  filter (fun p => Post_owner_id p = user_id) (posts (db w)) <> [] ->
  monotonic now + TTLCache.ttl <= monotonic later ->
  let first := get_posts hmac_sha256 token now w in
  let second := get_posts hmac_sha256 token' later (snd first) in
  fst second = fst first /\
  statements (db (snd second)) = statements (db (snd first)) ++ [SelectByOwner user_id].
Proof.
  intros Hauth Hauth' Hcold Hrows Hlate first second.
  set (rows := filter (fun p => Post_owner_id p = user_id) (posts (db w))) in *.
  destruct (TTLCacheFacts.contains_false_get _ _ _ Hcold) as [Hnone Hsame].
  assert (first =
          (Return (Posts (from_orm <$> rows)),
           mkWorld (executed (SelectByOwner user_id) (db w))
             (TTLCache.setitem user_id (Row <$> rows) (monotonic now) (cache w))))
    as Hfirst.
  { subst first. rewrite (get_posts_route _ _ _ _ _ Hauth).
    rewrite list_posts_miss by (by rewrite Hnone). cbv zeta.
    rewrite Hsame. fold rows. by destruct rows. }
  assert (TTLCache.contains user_id (monotonic later) (cache (snd first)) = false)
    as Hdead.
  { rewrite Hfirst. cbn [snd cache]. unfold TTLCache.contains.
    rewrite TTLCacheFacts.find_setitem. cbn [TTLCache.expires].
    apply bool_decide_eq_false. lia. }
  destruct (TTLCacheFacts.contains_false_get _ _ _ Hdead) as [Hnone' Hsame'].
  subst second. rewrite (get_posts_route _ _ _ _ _ Hauth').
  rewrite list_posts_miss by (by rewrite Hnone'). cbv zeta.
  rewrite Hfirst. cbn [snd fst db posts executed]. fold rows.
  by destruct rows.
Qed.

(** X8: [addPost] never changes the expiry of the caller's cache entry (the
    append is made in place), while a successful [deletePost] on a live,
    non-empty entry rewrites it without the deleted post and with expiry
    now + 300. *)
Theorem X8_time_to_live_append_and_rewrite token now user_id w e :
  authenticated hmac_sha256 token now user_id ->
  TTLCache.find user_id (cache w) = Some e ->
  (forall post request,
     exists e', TTLCache.find user_id
                  (cache (snd (add_post hmac_sha256 post request token now w))) = Some e' /\
                TTLCache.expires e' = TTLCache.expires e) /\
  (forall post_id post,
     post ∈ posts (db w) -> Post_id post = post_id -> Post_owner_id post = user_id ->
     monotonic now < TTLCache.expires e ->
     TTLCache.value e <> [] ->
     TTLCache.find user_id
       (cache (snd (delete_post hmac_sha256 post_id token now w))) =
       Some (TTLCache.mkEntry user_id
               (filter (fun p => cached_id p <> post_id) (TTLCache.value e))
               (monotonic now + TTLCache.ttl))).
Proof.
  intros Hauth Hfind. split.
  - intros post request. rewrite (add_post_route _ _ _ _ _ _ _ Hauth).
    destruct (Z.lt_ge_cases 1000000 (body_size request)) as [Hbig|Hok].
    + rewrite add_post_too_large by done. by exists e.
    + rewrite add_post_accepted by done. cbv zeta. cbn [snd cache].
      destruct (truthy _).
      * rewrite TTLCacheFacts.find_append, TTLCacheFacts.find_get, Hfind.
        eexists. split; [done|]. unfold TTLCache.grow. by case_decide.
      * rewrite TTLCacheFacts.find_get. by exists e.
  - intros post_id post Hpost Hid Hown Hlive Hne.
    assert (fst (TTLCache.get user_id (monotonic now) (cache w)) = Some (TTLCache.value e))
      as Hget by (apply TTLCacheFacts.get_Some; eauto).
    rewrite (delete_post_route _ _ _ _ _ _ Hauth).
    destruct (head (filter (fun p => Post_id p = post_id /\ Post_owner_id p = user_id)
                      (posts (db w)))) as [found|] eqn:Hfound.
    + rewrite (delete_post_done _ _ _ _ found Hfound). cbv zeta. cbn [snd cache].
      rewrite Hget. destruct (TTLCache.value e) as [|x l] eqn:Hval; [done|].
      cbn [truthy default]. apply TTLCacheFacts.find_setitem.
    + exfalso. apply head_None in Hfound.
      eapply filter_nil_not_elem_of; [exact Hfound | | exact Hpost]. done.
Qed.

(** X9: in every state the service reaches from its start the cache holds
    at most 100 entries, and no two of them are for the same owner. *)
Theorem X9_cache_capacity calls d :
  let c := cache (run hmac_sha256 calls (startup d)) in
  Z.of_nat (length c) <= 100 /\ NoDup (TTLCache.key <$> c).
Proof.
  intros c. assert (cache_wf c) as [Hkeys Hsize]; [|done].
  subst c. assert (cache_wf (cache (startup d))) as Hstart
    by (split; [constructor | done]).
  revert Hstart. generalize (startup d).
  induction calls as [|[t call] calls IH]; intros w0 Hw0; [done|].
  simpl. apply IH. by apply cache_wf_serve.
Qed.

End More.

(** * The further properties on the sample data *)

Lemma empty_db_wf : db_wf (mkDatabase [] 1 []).
Proof. split; constructor. Qed.

Lemma nobody_wf : users_wf SampleUsers.nobody.
Proof. repeat split; constructor. Qed.

Lemma three_calls_timely : timely 0 SampleUsers.three_calls.
Proof. simpl. lia. Qed.

Lemma two_calls_timely : timely 0 SampleUsers.two_calls.
Proof. simpl. lia. Qed.

Lemma alice_again_authenticated :
  authenticated Sample.mac SampleUsers.alice_again Sample.later 1.
Proof. eexists. split; vm_compute; reflexivity. Defined.

Lemma X1_unauthenticated_call_changes_nothing_witness :
  let e := HTTPException HTTP_401_UNAUTHORIZED "Invalid token" in
  verification_fails Sample.mac Sample.forged Sample.noon /\
  add_post Sample.mac Sample.hello Sample.small Sample.forged Sample.noon Sample.warm
    = (Raise e, Sample.warm) /\
  get_posts Sample.mac Sample.forged Sample.noon Sample.warm = (Raise e, Sample.warm) /\
  delete_post Sample.mac 1 Sample.forged Sample.noon Sample.warm = (Raise e, Sample.warm).
Proof.
  intros e.
  assert (verification_fails Sample.mac Sample.forged Sample.noon) as Hfail.
  { eapply signature_fails; [reflexivity|]. vm_compute. discriminate. }
  destruct (X1_unauthenticated_call_changes_nothing Sample.mac Sample.forged
              Sample.noon Sample.warm Hfail) as (Hadd & Hlist & Hdelete).
  split; [exact Hfail|]. split; [apply Hadd|]. split; [exact Hlist | apply Hdelete].
Defined.

Lemma X2_add_post_assigns_fresh_id_witness :
  let out := add_post Sample.mac Sample.hello Sample.small Sample.alice Sample.noon
               Sample.warm in
  fst out = Return (PostID 2) /\
  posts (db (snd out)) = [mkPost 1 "hello" 1; mkPost 2 "hello" 1].
Proof.
  destruct (X2_add_post_assigns_fresh_id Sample.mac SampleUsers.two_calls
              (mkDatabase [] 1 []) Sample.hello Sample.small Sample.alice Sample.noon 1
              empty_db_wf alice_authenticated small_within_limit)
    as (Hid & Hrows & _ & _).
  intros out. split; [exact Hid | exact Hrows].
Defined.

Lemma X3_delete_own_post_witness :
  let out := delete_post Sample.mac 1 Sample.alice Sample.noon Sample.cold in
  mkPost 1 "hello" 1 ∈ posts (db Sample.cold) /\
  fst out = Return (DeletePostResponse true "Post deleted successfully") /\
  mkPost 1 "hello" 1 ∉ posts (db (snd out)).
Proof.
  assert (mkPost 1 "hello" 1 ∈ posts (db Sample.cold)) as Hpost
    by (vm_compute; left).
  destruct (X3_delete_own_post Sample.mac 1 Sample.alice Sample.noon 1 Sample.cold
              (mkPost 1 "hello" 1) alice_authenticated Hpost eq_refl eq_refl)
    as (Hout & Hrows & _).
  intros out. split; [exact Hpost|]. split; [exact Hout|].
  intros Hin. apply Hrows in Hin as [_ Hne]. by apply Hne.
Defined.

Lemma warm_sound : sound 0 Sample.warm.
Proof.
  apply (sound_run Sample.mac 0 SampleUsers.two_calls Sample.fresh two_calls_timely).
  apply sound_startup, empty_db_wf.
Qed.

Lemma emptied_sound : sound 0 Sample.emptied.
Proof.
  apply (sound_run Sample.mac 0 SampleUsers.three_calls Sample.fresh three_calls_timely).
  apply sound_startup, empty_db_wf.
Qed.

Lemma X4_list_posts_shows_the_store_witness :
  (coherent (monotonic Sample.noon) Sample.warm /\
   fst (get_posts Sample.mac Sample.alice Sample.noon Sample.warm)
     = Return (Posts [mkPostResponse 1 "hello" 1])) /\
  (coherent (monotonic Sample.noon) Sample.emptied /\
   fst (get_posts Sample.mac Sample.alice Sample.noon Sample.emptied)
     = Raise (HTTPException HTTP_404_NOT_FOUND "No posts found")).
Proof.
  destruct warm_sound as (_ & _ & Hwarm). destruct emptied_sound as (_ & _ & Hemptied).
  split; (split; [assumption|]).
  - exact (X4_list_posts_shows_the_store Sample.mac Sample.alice Sample.noon 1
             Sample.warm Hwarm alice_authenticated).
  - exact (X4_list_posts_shows_the_store Sample.mac Sample.alice Sample.noon 1
             Sample.emptied Hemptied alice_authenticated).
Defined.

Lemma X5_add_then_list_shows_all_witness :
  sound 0 Sample.emptied /\
  TTLCache.find 1 (cache Sample.emptied) = Some (TTLCache.mkEntry 1 [] 300) /\
  fst (get_posts Sample.mac Sample.alice Sample.noon
         (snd (add_post Sample.mac Sample.hello Sample.small Sample.alice Sample.noon
                 Sample.emptied)))
    = Return (Posts [mkPostResponse 2 "hello" 1]).
Proof.
  assert (0 <= monotonic Sample.noon) as Hnow by (simpl; lia).
  split; [exact emptied_sound|]. split; [vm_compute; reflexivity|].
  exact (X5_add_then_list_shows_all Sample.mac 0 Sample.hello Sample.small
           Sample.alice Sample.noon 1 Sample.emptied
           emptied_sound Hnow alice_authenticated small_within_limit).
Defined.

Lemma X6_delete_then_list_omits_post_witness :
  let deleted := delete_post Sample.mac 1 Sample.alice Sample.noon Sample.warm in
  sound 0 Sample.warm /\
  fst deleted = Return (DeletePostResponse true "Post deleted successfully") /\
  fst (get_posts Sample.mac Sample.alice Sample.noon (snd deleted))
    = Raise (HTTPException HTTP_404_NOT_FOUND "No posts found").
Proof.
  assert (0 <= monotonic Sample.noon) as Hnow by (simpl; lia).
  assert (exists post, post ∈ posts (db Sample.warm) /\ Post_id post = 1 /\
                       Post_owner_id post = 1) as Hpost.
  { exists (mkPost 1 "hello" 1). split; [vm_compute; left | done]. }
  intros deleted. split; [exact warm_sound|].
  exact (X6_delete_then_list_omits_post Sample.mac 0 1 Sample.alice Sample.noon 1
           Sample.warm warm_sound Hnow alice_authenticated Hpost).
Defined.

Lemma X7_cache_entry_expires_witness :
  let first := get_posts Sample.mac Sample.alice Sample.noon Sample.cold in
  let second := get_posts Sample.mac SampleUsers.alice_again Sample.later (snd first) in
  fst second = Return (Posts [mkPostResponse 1 "hello" 1]) /\
  statements (db (snd second)) = statements (db (snd first)) ++ [SelectByOwner 1].
Proof.
  assert (TTLCache.contains 1 (monotonic Sample.noon) (cache Sample.cold) = false)
    as Hcold by (vm_compute; reflexivity).
  assert (filter (fun p => Post_owner_id p = 1) (posts (db Sample.cold)) <> [])
    as Hrows by (vm_compute; discriminate).
  assert (monotonic Sample.noon + TTLCache.ttl <= monotonic Sample.later) as Hlate
    by (vm_compute; discriminate).
  destruct (X7_cache_entry_expires Sample.mac Sample.alice Sample.noon
              SampleUsers.alice_again Sample.later 1 Sample.cold
              alice_authenticated alice_again_authenticated Hcold Hrows Hlate)
    as [Hsame Hlog].
  intros first second. split; [|exact Hlog].
  etransitivity; [exact Hsame|]. vm_compute. reflexivity.
Defined.

Lemma X8_time_to_live_append_and_rewrite_witness :
  TTLCache.find 1 (cache Sample.warm)
    = Some (TTLCache.mkEntry 1 [Row (mkPost 1 "hello" 1)] 300) /\
  (exists e', TTLCache.find 1
                (cache (snd (add_post Sample.mac Sample.hello Sample.small Sample.alice
                               Sample.noon Sample.warm))) = Some e' /\
              TTLCache.expires e' = 300) /\
  TTLCache.find 1 (cache (snd (delete_post Sample.mac 1 Sample.alice Sample.noon
                                 Sample.warm)))
    = Some (TTLCache.mkEntry 1 [] 300).
Proof.
  assert (TTLCache.find 1 (cache Sample.warm)
          = Some (TTLCache.mkEntry 1 [Row (mkPost 1 "hello" 1)] 300)) as Hfind
    by (vm_compute; reflexivity).
  destruct (X8_time_to_live_append_and_rewrite Sample.mac Sample.alice Sample.noon 1
              Sample.warm _ alice_authenticated Hfind) as [Hadd Hdelete].
  split; [exact Hfind|]. split; [exact (Hadd Sample.hello Sample.small)|].
  apply (Hdelete 1 (mkPost 1 "hello" 1)); try done.
  vm_compute. left.
Defined.


Lemma X11_signup_email_unique_witness :
  (exists response,
     fst (signup Sample.mac SampleUsers.digest SampleUsers.carol "salt" Sample.noon
            SampleUsers.nobody) = inr response) /\
  users SampleUsers.registered = [mkUser 1 "carol@x.com" "12345678"] /\
  signup Sample.mac SampleUsers.digest SampleUsers.carol "pepper" Sample.later
    SampleUsers.registered = (inl IntegrityError, SampleUsers.registered).
Proof.
  destruct (X11_signup_email_unique Sample.mac SampleUsers.digest SampleUsers.carol
              "salt" Sample.noon SampleUsers.nobody) as (_ & Hnew & _).
  destruct (X11_signup_email_unique Sample.mac SampleUsers.digest SampleUsers.carol
              "pepper" Sample.later SampleUsers.registered) as (Htaken & _ & _).
  assert ("carol@x.com" ∉ (User_email <$> users SampleUsers.nobody)) as Hfree
    by apply not_elem_of_nil.
  assert ("carol@x.com" ∈ (User_email <$> users SampleUsers.registered)) as Hin
    by (vm_compute; left).
  destruct (Hnew Hfree) as [Hresponse Hrows].
  split; [exact Hresponse|]. split; [exact Hrows | exact (Htaken Hin)].
Defined.

Lemma carol_signed_up :
  signup Sample.mac SampleUsers.digest SampleUsers.carol "salt" Sample.noon
    SampleUsers.nobody
  = (inr {| signup_message := "User created successfully";
            signup_access_token := Sample.alice;
            signup_token_type := "bearer" |},
     SampleUsers.registered).
Proof. vm_compute. reflexivity. Qed.

Lemma X12_signup_token_authenticates_witness :
  mkUser 1 "carol@x.com" "12345678" ∈ users SampleUsers.registered /\
  authenticated Sample.mac Sample.alice Sample.noon 1 /\
  get_current_user Sample.mac Sample.alice Sample.later
    = Raise (HTTPException HTTP_401_UNAUTHORIZED "Invalid token").
Proof.
  destruct (X12_signup_token_authenticates Sample.mac SampleUsers.digest _ _ _ _ _ _
              Sample.noon carol_signed_up) as (Hrow & Hlive & _).
  destruct (X12_signup_token_authenticates Sample.mac SampleUsers.digest _ _ _ _ _ _
              Sample.later carol_signed_up) as (_ & _ & Hdead).
  split; [exact Hrow|]. split.
  - apply Hlive. vm_compute. reflexivity.
  - apply Hdead. vm_compute. discriminate.
Defined.

Lemma registered_wf : users_wf SampleUsers.registered.
Proof.
  vm_compute. repeat split; repeat constructor; try apply not_elem_of_nil.
Qed.

Lemma X13_login_registered_user_witness :
  (exists response,
     login Sample.mac SampleUsers.check SampleUsers.carol_form Sample.later
       SampleUsers.registered = Return response /\
     authenticated Sample.mac (access_token response) Sample.later 1) /\
  login Sample.mac SampleUsers.check SampleUsers.wrong_form Sample.later
    SampleUsers.registered
    = Raise (HTTPException HTTP_401_UNAUTHORIZED "Invalid credentials").
Proof.
  assert (mkUser 1 "carol@x.com" "12345678" ∈ users SampleUsers.registered) as Hrow
    by (vm_compute; left).
  destruct (X13_login_registered_user Sample.mac SampleUsers.check
              SampleUsers.registered _ "12345678" Sample.later registered_wf Hrow)
    as [Hright _].
  destruct (X13_login_registered_user Sample.mac SampleUsers.check
              SampleUsers.registered _ "87654321" Sample.later registered_wf Hrow)
    as [_ Hwrong].
  split.
  - destruct (Hright eq_refl) as (response & Hlogin & _ & Hauth).
    exists response. split; [exact Hlogin|]. apply Hauth. vm_compute. reflexivity.
  - exact (Hwrong eq_refl).
Defined.

Lemma X14_login_failure_uniform_witness :
  let refused := Raise (HTTPException HTTP_401_UNAUTHORIZED "Invalid credentials") in
  login Sample.mac SampleUsers.check SampleUsers.stranger_form Sample.noon
    SampleUsers.registered = refused /\
  login Sample.mac SampleUsers.check SampleUsers.wrong_form Sample.noon
    SampleUsers.registered = refused.
Proof.
  intros refused. split.
  - apply (X14_login_failure_uniform Sample.mac SampleUsers.check). left.
    vm_compute. intros Hin. apply list_elem_of_singleton in Hin. discriminate.
  - apply (X14_login_failure_uniform Sample.mac SampleUsers.check). right.
    exists (mkUser 1 "carol@x.com" "12345678"). split; vm_compute; reflexivity.
Defined.

Lemma X15_signup_then_login_witness :
  exists answer,
    login Sample.mac SampleUsers.check SampleUsers.carol_form Sample.later
      SampleUsers.registered = Return answer /\
    authenticated Sample.mac (access_token answer) Sample.later 1.
Proof.
  assert (forall password s,
            SampleUsers.check password (SampleUsers.digest password s) = true)
    as Hbcrypt by (intros password s; apply String.eqb_refl).
  assert (utcnow Sample.later < utcnow Sample.later + ACCESS_TOKEN_EXPIRE_MINUTES * 60)
    as Hlive by (vm_compute; reflexivity).
  exact (X15_signup_then_login Sample.mac SampleUsers.digest SampleUsers.check
           SampleUsers.carol "salt" Sample.noon SampleUsers.nobody _ _ []
           Sample.later Sample.later Hbcrypt nobody_wf carol_signed_up Hlive).
Defined.
